(** * fuzz_lightyear.datastore: fixture registry, injection and caching

    A shallow embedding of [src/fuzz_lightyear/datastore.py]:
    the five [lru_cache]d container accessors, [clear_cache],
    [inject_user_defined_variables] (its inner [wrapped] closure) and
    [_get_injectable_variables], followed by the properties the
    specification states about them. *)

From Stdlib Require Import ZArith Ascii String.
From stdpp Require Import gmap strings list fin_maps.

#[local] Set Warnings "-register-all,-clear-no-such-hyp".
Local Open Scope string_scope.
Local Open Scope list_scope.

(** ** Python values and outcomes *)

(** The fragment of Python values the engine and its examples handle.
    [VNone] is Python's [None], the value the cache test compares with. *)
Inductive value : Type :=
  | VNone
  | VInt (z : Z)
  | VStr (s : string)
  | VList (l : list value).

(** [v is None] *)
Definition is_None (v : value) : bool :=
  match v with VNone => true | _ => false end.

(** Exceptions.  [TypeError] is what line 106 raises for a missing
    fixture; the others stand for whatever a factory, a converter or a
    function body raises. *)
Inductive exn : Type :=
  | TypeError
  | ValueError
  | UserError (msg : string).

(** The result of a call: a returned value or a raised exception. *)
Inductive outcome : Type :=
  | Ok (v : value)
  | Raise (e : exn).

(** ** Code objects and [_get_injectable_variables] *)

(** The three attributes of [func.__code__] the source reads. *)
Record code : Type := Code {
  co_varnames : list string;
  co_argcount : nat;
  co_kwonlyargcount : nat }.

(** Lines 139-142: [variable_names[:arg_count]]. *)
Definition _get_injectable_variables (c : code) : list string :=
  let variable_names := co_varnames c in
  let arg_count := co_argcount c + co_kwonlyargcount c in
  take arg_count variable_names.

(** A [def] statement as written: positional parameters, keyword-only
    parameters, the optional catch-all [*args] and [**kwargs] names, and
    the local variables of the body. *)
Record signature : Type := Signature {
  sig_positional : list string;
  sig_kwonly : list string;
  sig_vararg : option string;
  sig_varkw : option string;
  sig_locals : list string }.

(** The code object the interpreter builds for a [def], in the layout the
    docstring of [_get_injectable_variables] displays (lines 129-137):
    [co_varnames] lists the positional parameters, then the keyword-only
    ones, then the catch-all names, then the locals. *)
Definition code_of (s : signature) : code :=
  {| co_varnames :=
       sig_positional s ++ sig_kwonly s ++
       option_list (sig_vararg s) ++ option_list (sig_varkw s) ++
       sig_locals s;
     co_argcount := length (sig_positional s);
     co_kwonlyargcount := length (sig_kwonly s) |}.

(** The docstring's own example: [def func(a, b=1, *args, c, d=2, **kwargs): e = 5]. *)
Definition docstring_func : signature :=
  {| sig_positional := ["a"; "b"];
     sig_kwonly := ["c"; "d"];
     sig_vararg := Some "args";
     sig_varkw := Some "kwargs";
     sig_locals := ["e"] |}.

(** ** Function objects, the registry and the engine state *)

(** Function objects are identified by their identity (Python's [id]). *)
Definition oid : Type := nat.

(** A parameter annotation, as far as lines 109-115 look at it: whether it
    is an instance of [type(List)] (a [typing] generic alias such as
    [List[int]]), and what calling it on one argument does. *)
Record annotation : Type := Annotation {
  ann_is_generic : bool;
  ann_call : value -> outcome }.

(** What the engine reads of a function object [func]: its code object,
    its annotations ([inspect.getfullargspec(func).annotations]) and what
    calling it does.  A call receives the positional and the keyword
    arguments as passed (binding them to parameters is the callee's
    business), may read and change the user's world [W] (counters, a
    database, a random generator ...), and returns or raises.  The
    registry and the [_fuzz_cache] attributes are the engine's: a body
    or a factory does not touch them. *)
Record function (W : Type) : Type := Function {
  fn_code : code;
  fn_annotations : gmap string annotation;
  fn_body : list value -> gmap string value -> W -> outcome * W }.
Arguments Function {W}.
Arguments fn_code {W}.
Arguments fn_annotations {W}.
Arguments fn_body {W}.

(** The two places where [wrapped] calls out: line 108 invokes the
    factory registered under [arg_name], line 119 invokes [func]. *)
Inductive event : Type :=
  | FactoryCall (arg_name : string) (f : oid)
  | BodyCall (f : oid) (args : list value) (kwargs : gmap string value).

(** The mutable state the module works on.
    - [mapping]: the contents of the dictionary [get_user_defined_mapping()]
      returns (one shared object, see [Singletons] below), from fixture
      name to the registered callable;
    - [fuzz_cache]: the [_fuzz_cache] attribute of each function object
      that has one;
    - [world]: the user's state, touched only by factories and bodies;
    - [trace]: the calls made so far, oldest first. *)
Record state (W : Type) : Type := State {
  mapping : gmap string oid;
  fuzz_cache : gmap oid value;
  world : W;
  trace : list event }.
Arguments State {W}.
Arguments mapping {W}.
Arguments fuzz_cache {W}.
Arguments world {W}.
Arguments trace {W}.

Section Engine.
Context {W : Type}.

(** The function objects of the program, by identity. *)
Variable funcs : oid -> function W.

(** [getattr(func, '_fuzz_cache', None)] *)
Definition getattr_fuzz_cache (st : state W) (func : oid) : value :=
  default VNone (fuzz_cache st !! func).

(** [func._fuzz_cache = v] *)
Definition setattr_fuzz_cache (func : oid) (v : value) (st : state W) : state W :=
  {| mapping := mapping st;
     fuzz_cache := <[func := v]> (fuzz_cache st);
     world := world st;
     trace := trace st |}.

Definition log (e : event) (st : state W) : state W :=
  {| mapping := mapping st;
     fuzz_cache := fuzz_cache st;
     world := world st;
     trace := trace st ++ [e] |}.

(** [f( *args, **kwargs)] for a plain function object. *)
Definition call (f : oid) (args : list value) (kwargs : gmap string value)
    (st : state W) : outcome * state W :=
  let '(r, w) := fn_body (funcs f) args kwargs (world st) in
  (r, {| mapping := mapping st;
         fuzz_cache := fuzz_cache st;
         world := w;
         trace := trace st |}).

(** Line 108: [mapping[arg_name]()]. *)
Definition call_factory (arg_name : string) (f : oid) (st : state W)
    : outcome * state W :=
  call f [] ∅ (log (FactoryCall arg_name f) st).

(** Line 119: [func( *args, **kwargs)]. *)
Definition call_body (func : oid) (args : list value)
    (kwargs : gmap string value) (st : state W) : outcome * state W :=
  call func args kwargs (log (BodyCall func args kwargs) st).

(** Lines 109-115: cast through the annotation unless there is none or
    it is an instance of [type(List)]. *)
Definition coerce (type_annotations : gmap string annotation)
    (arg_name : string) (v : value) : outcome :=
  match type_annotations !! arg_name with
  | Some ann => if negb (ann_is_generic ann) then ann_call ann v else Ok v
  | None => Ok v
  end.

(** Lines 98-117: the loop over [enumerate(expected_args)], from position
    [index] on.  [nargs] is [len(args)].  The loop ends with the keyword
    arguments to pass, or with the exception that left it. *)
Fixpoint inject (type_annotations : gmap string annotation) (nargs : nat)
    (index : nat) (expected_args : list string)
    (kwargs : gmap string value) (st : state W)
    : (exn + gmap string value) * state W :=
  match expected_args with
  | [] => (inr kwargs, st)
  | arg_name :: rest =>
      if (index <? nargs)%nat then
        inject type_annotations nargs (S index) rest kwargs st
      else
        match mapping st !! arg_name with
        | None => (inl TypeError, st)
        | Some factory =>
            match call_factory arg_name factory st with
            | (Raise e, st1) => (inl e, st1)
            | (Ok v, st1) =>
                match coerce type_annotations arg_name v with
                | Raise e => (inl e, st1)
                | Ok v' =>
                    inject type_annotations nargs (S index) rest
                      (<[arg_name := v']> kwargs) st1
                end
            end
        end
  end.

(** Lines 95-120: what [wrapped] does once the cache test has failed. *)
Definition resolve_and_call (func : oid) (args : list value)
    (kwargs : gmap string value) (st : state W) : outcome * state W :=
  let expected_args := _get_injectable_variables (fn_code (funcs func)) in
  let type_annotations := fn_annotations (funcs func) in
  match inject type_annotations (length args) 0 expected_args kwargs st with
  | (inl e, st1) => (Raise e, st1)
  | (inr kwargs', st1) =>
      match call_body func args kwargs' st1 with
      | (Raise e, st2) => (Raise e, st2)
      | (Ok v, st2) => (Ok v, setattr_fuzz_cache func v st2)
      end
  end.

(** Lines 91-120: the closure [inject_user_defined_variables(func)]
    returns, called as [wrapped( *args, **kwargs)]. *)
Definition wrapped (func : oid) (args : list value)
    (kwargs : gmap string value) (st : state W) : outcome * state W :=
  if negb (is_None (getattr_fuzz_cache st func)) then
    (Ok (getattr_fuzz_cache st func), st)
  else
    resolve_and_call func args kwargs st.

(** Lines 70-73: [clear_cache].  The loop runs over the values of the
    registry; it returns [None], so only the new state is given. *)
Definition clear_cache (st : state W) : state W :=
  foldl (fun acc f => setattr_fuzz_cache f VNone acc) st
        (map_to_list (mapping st)).*2.

(** The names the loop resolves: those at an index not covered by a
    positional argument. *)
Definition resolved_names (func : oid) (nargs : nat) : list string :=
  drop nargs (_get_injectable_variables (fn_code (funcs func))).

(** Events of one kind in a trace. *)
Definition is_body_call (func : oid) (e : event) : bool :=
  match e with
  | BodyCall f _ _ => bool_decide (f = func)
  | FactoryCall _ _ => false
  end.

Definition is_factory_call (arg_name : string) (e : event) : bool :=
  match e with
  | FactoryCall n _ => bool_decide (n = arg_name)
  | BodyCall _ _ _ => false
  end.

Definition body_calls (func : oid) (t : list event) : nat :=
  length (List.filter (is_body_call func) t).

Definition factory_calls (arg_name : string) (t : list event) : nat :=
  length (List.filter (is_factory_call arg_name) t).

(** A trace made of factory calls only. *)
Definition only_factory_calls (t : list event) : Prop :=
  Forall (fun e => exists n f, e = FactoryCall n f) t.

(** No factory registered for one of [names] raises, whatever the
    world it runs in, and no converter rejects what it returns. *)
Definition resolves_cleanly (anns : gmap string annotation)
    (st : state W) (names : list string) : Prop :=
  forall m f w, m ∈ names -> mapping st !! m = Some f ->
    exists v w' v', fn_body (funcs f) [] ∅ w = (Ok v, w')
                    /\ coerce anns m v = Ok v'.

(** Between [st] and [st'] the body of [func] has run once more and so
    has the factory of every name resolved for a call with [args]
    (parameter names being distinct). *)
Definition runs_again (func : oid) (args : list value)
    (st st' : state W) : Prop :=
  body_calls func (trace st') = S (body_calls func (trace st))
  /\ (NoDup (_get_injectable_variables (fn_code (funcs func))) ->
      forall n, n ∈ resolved_names func (length args) ->
        factory_calls n (trace st') = S (factory_calls n (trace st))).

(** The factory calls a loop over [names] logs while every name is
    registered: one per name, in the order of the names. *)
Definition factory_events (m : gmap string oid) (names : list string)
    : list event :=
  omap (fun n => FactoryCall n <$> m !! n) names.

End Engine.


(** ** The container accessors (lines 13-67) *)

Module Singletons.

(** The five functions decorated with [lru_cache(maxsize=1)]. *)
Inductive accessor : Type :=
  | get_setup_fixtures
  | get_user_defined_mapping
  | get_included_tags
  | get_excluded_operations
  | get_non_vulnerable_operations.

#[global] Instance accessor_eq_dec : EqDecision accessor.
Proof. solve_decision. Defined.

(** The mutable containers the accessors create. *)
Inductive container : Type :=
  | PyList (items : list oid)
  | PyDict (items : gmap string oid)
  | PySet (items : gset string)
  | PyTagDict (items : gmap string (option string)).

(** The body of each accessor: the literal it returns. *)
Definition fresh_container (a : accessor) : container :=
  match a with
  | get_setup_fixtures => PyList []
  | get_user_defined_mapping => PyDict ∅
  | get_included_tags => PySet ∅
  | get_excluded_operations => PyTagDict ∅
  | get_non_vulnerable_operations => PyTagDict ∅
  end.

(** A reference to a container: its position in the heap. *)
Definition loc : Type := nat.

(** The heap of containers, and for each accessor the entry its
    [lru_cache] holds.  The accessors take no argument, so the only key
    is the empty argument tuple and one entry is all there is. *)
Record store : Type := Store {
  heap : list container;
  memo : accessor -> option loc }.

(** A process starts with no container and empty caches. *)
Definition startup : store :=
  {| heap := []; memo := fun _ => None |}.

(** Calling an accessor: a hit returns the reference kept in the cache;
    a miss runs the body, which allocates a new container, and keeps
    the reference. *)
Definition get (a : accessor) (s : store) : loc * store :=
  match memo s a with
  | Some l => (l, s)
  | None =>
      let l := length (heap s) in
      (l, {| heap := heap s ++ [fresh_container a];
             memo := fun b => if decide (b = a) then Some l else memo s b |})
  end.

(** Reading and changing a container through a reference. *)
Definition read (l : loc) (s : store) : option container :=
  heap s !! l.

Definition mutate (l : loc) (g : container -> container) (s : store) : store :=
  {| heap := alter g l (heap s); memo := memo s |}.

(** What the collaborators do with the accessors during a run. *)
Inductive op : Type :=
  | Get (a : accessor)
  | Mutate (l : loc) (g : container -> container).

Definition step (o : op) (s : store) : store :=
  match o with
  | Get a => snd (get a s)
  | Mutate l g => mutate l g s
  end.

Definition run (ops : list op) (s : store) : store :=
  foldl (fun acc o => step o acc) s ops.

(** [container.add(tag)] on the tag set. *)
Definition add_tag (tag : string) (c : container) : container :=
  match c with
  | PySet items => PySet ({[tag]} ∪ items)
  | _ => c
  end.

(** The caches only hold references to allocated containers. *)
Definition memo_valid (s : store) : Prop :=
  forall a l, memo s a = Some l -> l < length (heap s).

(** The number of accessors whose cache holds an entry. *)
Definition all_accessors : list accessor :=
  [get_setup_fixtures; get_user_defined_mapping; get_included_tags;
   get_excluded_operations; get_non_vulnerable_operations].

Definition cached_accessors (s : store) : nat :=
  length (List.filter (fun a => bool_decide (is_Some (memo s a))) all_accessors).

(** No two accessors share a cache entry. *)
Definition memo_injective (s : store) : Prop :=
  forall a b l, memo s a = Some l -> memo s b = Some l -> a = b.

(** The changes a run makes through the reference [l], in order. *)
Definition mutations_at (l : loc) (ops : list op)
    : list (container -> container) :=
  omap (fun o => match o with
                 | Mutate l' g => if decide (l' = l) then Some g else None
                 | Get _ => None
                 end) ops.

End Singletons.

(** ** A small program to run the engine on *)

Module Examples.

(** The builtin [int] on the values used here: an integer is returned
    as it is, a string of decimal digits is read, any other string is a
    [ValueError], [None] and lists are a [TypeError]. *)
Definition digit_of (c : ascii) : option Z :=
  let n := nat_of_ascii c in
  if ((48 <=? n) && (n <=? 57))%nat then Some (Z.of_nat (n - 48)) else None.

Fixpoint parse_decimal (acc : Z) (s : string) : option Z :=
  match s with
  | EmptyString => Some acc
  | String c rest =>
      match digit_of c with
      | Some d => parse_decimal (10 * acc + d)%Z rest
      | None => None
      end
  end.

Definition py_int (v : value) : outcome :=
  match v with
  | VInt z => Ok (VInt z)
  | VStr EmptyString => Raise ValueError
  | VStr s =>
      match parse_decimal 0 s with
      | Some z => Ok (VInt z)
      | None => Raise ValueError
      end
  | VNone | VList _ => Raise TypeError
  end.

Definition int_annotation : annotation :=
  {| ann_is_generic := false; ann_call := py_int |}.

(** [List[int]]: an instance of [type(List)]; it cannot be called. *)
Definition list_int_annotation : annotation :=
  {| ann_is_generic := true; ann_call := fun _ => Raise TypeError |}.

(** Binding the one parameter [p] of a function [def f(p)]: from the
    first positional argument or from the keyword [p]; both, neither or
    anything more is a [TypeError]. *)
Definition bind1 (p : string) (args : list value)
    (kwargs : gmap string value) : option value :=
  match args, kwargs !! p with
  | [v], None => if bool_decide (kwargs = ∅) then Some v else None
  | [], Some v => if bool_decide (delete p kwargs = ∅) then Some v else None
  | _, _ => None
  end.

(** A function of no parameter. *)
Definition nullary (r : outcome) : list value -> gmap string value -> nat -> outcome * nat :=
  fun args kwargs n =>
    match args with
    | [] => if bool_decide (kwargs = ∅) then (r, S n) else (Raise TypeError, n)
    | _ => (Raise TypeError, n)
    end.

(** A function of one parameter [p] whose body computes [body p]. *)
Definition unary (p : string) (body : value -> outcome)
    : list value -> gmap string value -> nat -> outcome * nat :=
  fun args kwargs n =>
    match bind1 p args kwargs with
    | Some v => (body v, S n)
    | None => (Raise TypeError, n)
    end.

Definition code0 : code := Code [] 0 0.
Definition code1 (p : string) : code := Code [p] 1 0.

(** The world is a counter of the bodies run so far. *)
Definition funcs (f : oid) : function nat :=
  match f with
  | 0 => (* def name(): return 'freddy' *)
      Function code0 ∅ (nullary (Ok (VStr "freddy")))
  | 1 => (* def hello(name): return 'hello ' + name *)
      Function (code1 "name") ∅
        (unary "name" (fun v =>
           match v with
           | VStr s => Ok (VStr ("hello " +:+ s))
           | _ => Raise TypeError
           end))
  | 2 => (* def amount(): return '5' *)
      Function code0 ∅ (nullary (Ok (VStr "5")))
  | 3 => (* def h(amount: int): return amount + 1 *)
      Function (code1 "amount") {[ "amount" := int_annotation ]}
        (unary "amount" (fun v =>
           match v with
           | VInt z => Ok (VInt (z + 1))
           | _ => Raise TypeError
           end))
  | 4 => (* def items(): return [1, 2, 3] *)
      Function code0 ∅ (nullary (Ok (VList [VInt 1; VInt 2; VInt 3])))
  | 5 => (* def k(items: List[int]): return items *)
      Function (code1 "items") {[ "items" := list_int_annotation ]}
        (unary "items" Ok)
  | 6 => (* def g(missing): return missing *)
      Function (code1 "missing") ∅ (unary "missing" Ok)
  | 7 => (* def noop(): pass *)
      Function code0 ∅ (nullary (Ok VNone))
  | 8 => (* def boom(): raise RuntimeError('boom') *)
      Function code0 ∅ (nullary (Raise (UserError "boom")))
  | 9 => (* def word(): return 'x' *)
      Function code0 ∅ (nullary (Ok (VStr "x")))
  | 10 => (* def two(word: int, missing): pass *)
      Function (Code ["word"; "missing"] 2 0) {[ "word" := int_annotation ]}
        (fun args kwargs n => (Ok VNone, S n))
  | 11 => (* def pair(name, missing): pass *)
      Function (Code ["name"; "missing"] 2 0) ∅
        (fun args kwargs n => (Ok VNone, S n))
  | 12 => (* def greeting(name): return 'hello ' + name *)
      Function (code1 "name") ∅
        (unary "name" (fun v =>
           match v with
           | VStr s => Ok (VStr ("hello " +:+ s))
           | _ => Raise TypeError
           end))
  | _ => Function code0 ∅ (nullary (Ok VNone))
  end.

(** The registry once [name], [amount], [items], [word] and [greeting]
    have been registered under their own names. *)
Definition registry : gmap string oid :=
  {[ "name" := 0; "amount" := 2; "items" := 4; "word" := 9;
     "greeting" := 12 ]}.

Definition st0 : state nat :=
  {| mapping := registry; fuzz_cache := ∅; world := 0; trace := [] |}.

(** The states the runs below end in. *)

(** After [hello()] (and after [hello(name='bob')]). *)
Definition after_hello : state nat :=
  {| mapping := registry;
     fuzz_cache := {[ 1 := VStr "hello freddy" ]};
     world := 2;
     trace := [FactoryCall "name" 0;
               BodyCall 1 [] {[ "name" := VStr "freddy" ]}] |}.

(** After [hello('bob')]. *)
Definition after_bob : state nat :=
  {| mapping := registry;
     fuzz_cache := {[ 1 := VStr "hello bob" ]};
     world := 1;
     trace := [BodyCall 1 [VStr "bob"] ∅] |}.

(** After [h()]. *)
Definition after_h : state nat :=
  {| mapping := registry;
     fuzz_cache := {[ 3 := VInt 6 ]};
     world := 2;
     trace := [FactoryCall "amount" 2;
               BodyCall 3 [] {[ "amount" := VInt 5 ]}] |}.

(** After [k()]. *)
Definition after_k : state nat :=
  {| mapping := registry;
     fuzz_cache := {[ 5 := VList [VInt 1; VInt 2; VInt 3] ]};
     world := 2;
     trace := [FactoryCall "items" 4;
               BodyCall 5 [] {[ "items" := VList [VInt 1; VInt 2; VInt 3] ]}] |}.

(** After [two()]: the factory of [word] has run, nothing else. *)
Definition after_two : state nat :=
  {| mapping := registry;
     fuzz_cache := ∅;
     world := 1;
     trace := [FactoryCall "word" 9] |}.

(** After [pair()]: the factory of [name] has run, nothing else. *)
Definition after_pair : state nat :=
  {| mapping := registry;
     fuzz_cache := ∅;
     world := 1;
     trace := [FactoryCall "name" 0] |}.

(** After one and after two calls of [noop()]. *)
Definition after_noop : state nat :=
  {| mapping := registry;
     fuzz_cache := {[ 7 := VNone ]};
     world := 1;
     trace := [BodyCall 7 [] ∅] |}.

Definition after_noop_twice : state nat :=
  {| mapping := registry;
     fuzz_cache := {[ 7 := VNone ]};
     world := 2;
     trace := [BodyCall 7 [] ∅; BodyCall 7 [] ∅] |}.

(** After [boom()]. *)
Definition after_boom : state nat :=
  {| mapping := registry;
     fuzz_cache := ∅;
     world := 1;
     trace := [BodyCall 8 [] ∅] |}.

(** After [greeting()]; after the [clear_cache()] that follows; after
    the second [greeting()]. *)
Definition after_greeting : state nat :=
  {| mapping := registry;
     fuzz_cache := {[ 12 := VStr "hello freddy" ]};
     world := 2;
     trace := [FactoryCall "name" 0;
               BodyCall 12 [] {[ "name" := VStr "freddy" ]}] |}.

Definition after_greeting_cleared : state nat :=
  {| mapping := registry;
     fuzz_cache := {[ 0 := VNone; 2 := VNone; 4 := VNone; 9 := VNone;
                      12 := VNone ]};
     world := 2;
     trace := [FactoryCall "name" 0;
               BodyCall 12 [] {[ "name" := VStr "freddy" ]}] |}.

Definition after_greeting_again : state nat :=
  {| mapping := registry;
     fuzz_cache := {[ 0 := VNone; 2 := VNone; 4 := VNone; 9 := VNone;
                      12 := VStr "hello freddy" ]};
     world := 4;
     trace := [FactoryCall "name" 0;
               BodyCall 12 [] {[ "name" := VStr "freddy" ]};
               FactoryCall "name" 0;
               BodyCall 12 [] {[ "name" := VStr "freddy" ]}] |}.

End Examples.

(** ** [main.setup_client] (main.py, lines 57-79) *)

Module Main.

(** An exception raised by [get_client], as far as the [except] clauses
    of [setup_client] look at it: which of the four classes it is an
    instance of. *)
Record raised : Type := Raised {
  is_ConnectionError : bool;
  is_JSONDecodeError : bool;
  is_HTTPError : bool;
  is_SwaggerValidationError : bool }.

(** The result of a call of [setup_client]: the value it returns (an
    error message or [None]) or the exception it lets through. *)
Inductive setup_result : Type :=
  | Return (message : option string)
  | Propagate (e : raised).

Section SetupClient.
(** The schema argument is handed to [get_client] untouched. *)
Context {schema : Type}.

(** [get_client(url=url, schema=schema)]: it returns (the client is
    not used) or raises. *)
Variable get_client : string -> option schema -> option raised.

(** Lines 64-79.  The clauses are tried in order. *)
Definition setup_client (url : string) (sch : option schema) : setup_result :=
  match get_client url sch with
  | None => Return None
  | Some e =>
      if is_ConnectionError e then
        Return (Some "Unable to connect to server.")
      else if is_JSONDecodeError e || is_HTTPError e then
        Return (Some ("Invalid swagger.json file. Please check to make sure the "
                      +:+ "swagger file can be found at: " +:+ url +:+ "."))
      else if is_SwaggerValidationError e then
        Return (Some "Invalid swagger format.")
      else Propagate e
  end.

(** The test [if message:] of [main] (line 29): a message that is
    neither [None] nor the empty string. *)
Definition truthy (message : option string) : bool :=
  match message with
  | None => false
  | Some EmptyString => false
  | Some (String _ _) => true
  end.

(** An exception one of the [except] clauses names. *)
Definition handled (e : raised) : bool :=
  is_ConnectionError e || is_JSONDecodeError e || is_HTTPError e
  || is_SwaggerValidationError e.

End SetupClient.

End Main.

(** ** A second program: catch-all and keyword-only parameters *)

Module Variadic.

(** [def report(a, *rest, c, d): pass] *)
Definition report_signature : signature :=
  {| sig_positional := ["a"];
     sig_kwonly := ["c"; "d"];
     sig_vararg := Some "rest";
     sig_varkw := None;
     sig_locals := [] |}.

(** [report] is object 0; [a], [c] and [d] are registered as objects
    1, 2 and 3, each returning its own number. *)
Definition funcs (f : oid) : function unit :=
  match f with
  | 0 => Function (code_of report_signature) ∅
           (fun args kwargs w => (Ok (VList args), w))
  | S n => Function (Code [] 0 0) ∅
             (fun args kwargs w => (Ok (VInt (Z.of_nat n)), w))
  end.

Definition st0 : state unit :=
  {| mapping := {[ "a" := 1; "c" := 2; "d" := 3 ]};
     fuzz_cache := ∅; world := tt; trace := [] |}.

(** After [report(10, 11)]: only [d] has been resolved. *)
Definition after_report : state unit :=
  {| mapping := {[ "a" := 1; "c" := 2; "d" := 3 ]};
     fuzz_cache := {[ 0 := VList [VInt 10; VInt 11] ]};
     world := tt;
     trace := [FactoryCall "d" 3;
               BodyCall 0 [VInt 10; VInt 11] {[ "d" := VInt 2 ]}] |}.

End Variadic.

(** ** A third program: the missing name comes first *)

Module Ordering.

(** [def late(missing, word: int): pass] is object 0; [word] is
    registered as object 1, which returns ['x']. *)
Definition funcs (f : oid) : function unit :=
  match f with
  | 0 => Function (Code ["missing"; "word"] 2 0)
           {[ "word" := Examples.int_annotation ]}
           (fun args kwargs w => (Ok VNone, w))
  | _ => Function (Code [] 0 0) ∅
           (fun args kwargs w => (Ok (VStr "x"), w))
  end.

Definition st0 : state unit :=
  {| mapping := {[ "word" := 1 ]};
     fuzz_cache := ∅; world := tt; trace := [] |}.

End Ordering.

(** * Properties *)

(** ** [_get_injectable_variables] *)

Example docstring_func_varnames :
  co_varnames (code_of docstring_func) = ["a"; "b"; "c"; "d"; "args"; "kwargs"; "e"]
  /\ co_argcount (code_of docstring_func) = 2
  /\ co_kwonlyargcount (code_of docstring_func) = 2.
Proof. repeat split. Qed.

Example docstring_func_injectable :
  _get_injectable_variables (code_of docstring_func) = ["a"; "b"; "c"; "d"].
Proof. reflexivity. Qed.

(** C6. The injectable names of a function are exactly its positional
    parameters followed by its keyword-only parameters, in declaration
    order; the catch-all parameter names and the locals of the body,
    which follow them in [co_varnames], are cut off. *)
Theorem injectable_variables_are_declared_parameters (s : signature) :
  _get_injectable_variables (code_of s) = sig_positional s ++ sig_kwonly s.
Proof.
  unfold _get_injectable_variables, code_of; cbn.
  rewrite <- length_app, app_assoc.
  apply take_app_length.
Qed.

(** ** The container accessors *)

Module SingletonFacts.
Import Singletons.

Lemma get_memo a s : memo (get a s).2 a = Some (get a s).1.
Proof.
  unfold get. destruct (memo s a) as [l|] eqn:E; cbn; [done|].
  by rewrite decide_True.
Qed.

Lemma get_hit a s l : memo s a = Some l -> get a s = (l, s).
Proof. unfold get. by intros ->. Qed.

(** A step never drops or changes a cache entry. *)
Lemma step_memo o s a l :
  memo_valid s -> memo s a = Some l -> memo (step o s) a = Some l.
Proof.
  intros Hv Ha. destruct o as [b|l' g]; cbn; [|done].
  unfold get. destruct (memo s b) as [lb|] eqn:E; cbn; [done|].
  destruct (decide (a = b)) as [->|]; [congruence|done].
Qed.

Lemma step_valid o s : memo_valid s -> memo_valid (step o s).
Proof.
  intros Hv. destruct o as [b|l' g]; cbn.
  - unfold get. destruct (memo s b) as [lb|] eqn:E; cbn; [done|].
    intros a l. cbn. rewrite length_app; cbn.
    destruct (decide (a = b)); [intros [= <-]; lia|].
    intros H%Hv. lia.
  - intros a l H%Hv. cbn. by rewrite length_alter.
Qed.

Lemma run_valid ops s : memo_valid s -> memo_valid (run ops s).
Proof.
  revert s. induction ops as [|o ops IH]; intros s Hv; cbn; [done|].
  apply IH, step_valid, Hv.
Qed.

Lemma run_memo ops s a l :
  memo_valid s -> memo s a = Some l -> memo (run ops s) a = Some l.
Proof.
  revert s. induction ops as [|o ops IH]; intros s Hv Ha; cbn; [done|].
  apply IH; [by apply step_valid | by apply step_memo].
Qed.

Lemma startup_valid : memo_valid startup.
Proof. intros a l; cbn; discriminate. Qed.

Lemma get_valid a s : memo_valid s -> memo_valid (get a s).2.
Proof. intros Hv. apply (step_valid (Get a) s Hv). Qed.

(** C9. In any run of the process, two calls of the same accessor,
    whatever happens in between, return the same reference; the
    container it denotes exists, and a change made through the
    reference of the first call is what a read through the reference
    of the second call sees. *)
Theorem accessors_return_one_shared_container
    (before between : list op) (a : accessor) (g : container -> container) :
  let s := run before startup in
  let s1 := (get a s).2 in
  let s2 := run between s1 in
  let s3 := (get a s2).2 in
  (get a s2).1 = (get a s).1
  /\ is_Some (read (get a s).1 s3)
  /\ read (get a s2).1 (mutate (get a s).1 g s3) = g <$> read (get a s).1 s3.
Proof.
  intros s s1 s2 s3.
  assert (Hs : memo_valid s) by apply run_valid, startup_valid.
  assert (Hs1 : memo_valid s1) by apply get_valid, Hs.
  assert (Hm1 : memo s1 a = Some (get a s).1) by apply get_memo.
  assert (Hs2 : memo_valid s2) by apply run_valid, Hs1.
  assert (Hm2 : memo s2 a = Some (get a s).1) by (apply run_memo; done).
  assert (Hget : get a s2 = ((get a s).1, s2)) by apply get_hit, Hm2.
  subst s3. rewrite Hget; cbn.
  split; [done|]. split.
  - apply lookup_lt_is_Some, (Hs2 a), Hm2.
  - unfold read, mutate; cbn. by rewrite list_lookup_alter_eq.
Qed.

(** The specification's test: two reads of the included tags, an
    insertion through the first reference, seen through the second. *)
Example included_tags_shared :
  let '(l1, s1) := get get_included_tags startup in
  let '(l2, s2) := get get_included_tags s1 in
  read l2 (mutate l1 (add_tag "pets") s2) = Some (PySet {[ "pets" ]}).
Proof. vm_compute. reflexivity. Qed.

(** Distinct accessors hand out distinct containers. *)
Example excluded_and_non_vulnerable_differ :
  (get get_excluded_operations startup).1
  <> (get get_non_vulnerable_operations (get get_excluded_operations startup).2).1.
Proof. vm_compute. discriminate. Qed.

(** *** Further properties of the accessors *)

Lemma step_injective o s :
  memo_valid s -> memo_injective s -> memo_injective (step o s).
Proof.
  intros Hv Hinj. destruct o as [b|l' g]; cbn; [|done].
  unfold get. destruct (memo s b) as [lb|] eqn:E; cbn; [done|].
  intros a a' l. cbn.
  destruct (decide (a = b)) as [->|Ha], (decide (a' = b)) as [->|Ha']; try done.
  - intros [= <-] H%Hv. lia.
  - intros H%Hv [= <-]. lia.
  - apply Hinj.
Qed.

Lemma run_injective ops s :
  memo_valid s -> memo_injective s -> memo_injective (run ops s).
Proof.
  revert s. induction ops as [|o ops IH]; intros s Hv Hinj; cbn; [done|].
  apply IH; [by apply step_valid | by apply step_injective].
Qed.

Lemma startup_injective : memo_injective startup.
Proof. intros a b l; cbn; discriminate. Qed.

(** X11. Two different accessors never hand out the same container, although
    three of them return the same literal: in any run, the references
    differ, and a change made through one is not seen through the
    other. *)
Theorem distinct_accessors_distinct_containers
    (before between : list op) (a b : accessor) (g : container -> container) :
  a <> b ->
  let s := run before startup in
  let s1 := (get a s).2 in
  let s2 := run between s1 in
  let s3 := (get b s2).2 in
  (get b s2).1 <> (get a s).1
  /\ read (get b s2).1 (mutate (get a s).1 g s3) = read (get b s2).1 s3.
Proof.
  intros Hab s s1 s2 s3.
  assert (Hs : memo_valid s) by apply run_valid, startup_valid.
  assert (Hi : memo_injective s) by (apply run_injective; [apply startup_valid|apply startup_injective]).
  assert (Hs1 : memo_valid s1) by apply get_valid, Hs.
  assert (Hi1 : memo_injective s1) by apply (step_injective (Get a) s Hs Hi).
  assert (Hs2 : memo_valid s2) by apply run_valid, Hs1.
  assert (Hi2 : memo_injective s2) by (by apply run_injective).
  assert (Hi3 : memo_injective s3) by apply (step_injective (Get b) s2 Hs2 Hi2).
  assert (Ha : memo s3 a = Some (get a s).1).
  { apply (step_memo (Get b) s2); [done|]. apply run_memo; [done|]. apply get_memo. }
  assert (Hb : memo s3 b = Some (get b s2).1) by apply get_memo.
  assert (Hne : (get b s2).1 <> (get a s).1).
  { intros Heq. rewrite Heq in Hb. by apply Hab, (Hi3 a b _ Ha Hb). }
  split; [done|].
  unfold read, mutate; cbn. by apply list_lookup_alter_ne.
Qed.

Lemma step_allocates o s :
  length (heap s) = cached_accessors s ->
  length (heap (step o s)) = cached_accessors (step o s).
Proof.
  intros H. destruct o as [b|l g]; cbn.
  - unfold get. destruct (memo s b) as [lb|] eqn:E; cbn; [done|].
    rewrite length_app, H. unfold cached_accessors; cbn.
    destruct b; cbn; rewrite E;
      destruct (memo s get_setup_fixtures), (memo s get_user_defined_mapping),
        (memo s get_included_tags), (memo s get_excluded_operations),
        (memo s get_non_vulnerable_operations); try discriminate; reflexivity.
  - by rewrite length_alter.
Qed.

(** X12. In any run there is one container per accessor called so far, hence
    never more than five: an accessor called again allocates nothing. *)
Theorem one_container_per_accessor (ops : list op) :
  length (heap (run ops startup)) = cached_accessors (run ops startup)
  /\ length (heap (run ops startup)) <= 5.
Proof.
  assert (H : forall s, length (heap s) = cached_accessors s ->
                length (heap (run ops s)) = cached_accessors (run ops s)).
  { induction ops as [|o ops IH]; intros s Hs; cbn; [done|].
    apply IH, step_allocates, Hs. }
  split; [by apply H|]. rewrite H by done.
  unfold cached_accessors.
  etransitivity; [apply List.filter_length_le|done].
Qed.

Lemma get_preserves_contents b l s c :
  read l s = Some c -> read l (get b s).2 = Some c.
Proof.
  intros Hl. unfold get, read in *. destruct (memo s b); cbn; [done|].
  rewrite lookup_app_l; [done|]. by eapply lookup_lt_Some.
Qed.

Lemma run_contents ops : forall s l c,
  read l s = Some c ->
  read l (run ops s) = Some (foldl (fun c g => g c) c (mutations_at l ops)).
Proof.
  induction ops as [|o ops IH]; intros s l c Hl; [done|].
  destruct o as [b|l' g]; cbn.
  - apply IH. by apply get_preserves_contents.
  - destruct (decide (l' = l)) as [->|Hne]; cbn.
    + apply IH. unfold read, mutate; cbn.
      rewrite list_lookup_alter_eq. apply fmap_Some. exists c. split; [exact Hl|done].
    + apply IH. unfold read, mutate; cbn.
      rewrite list_lookup_alter_ne by done. exact Hl.
Qed.

(** X13. A container holds exactly what was put into it.  After any run
    of accessor calls and changes, what is read through a reference is
    the earlier content with the changes made through that reference
    applied in order: accessor calls, first or repeated, and changes
    made through other references never alter it.  For the reference a
    first call returns, the earlier content is the empty literal of the
    accessor's body. *)
Theorem container_holds_exactly_its_mutations :
  (forall (s : store) (l : loc) (c : container) (ops : list op),
     read l s = Some c ->
     read l (run ops s)
     = Some (foldl (fun c g => g c) c (mutations_at l ops)))
  /\ (forall (s : store) (a : accessor) (ops : list op),
        memo s a = None ->
        read (get a s).1 (run ops (get a s).2)
        = Some (foldl (fun c g => g c) (fresh_container a)
                  (mutations_at (get a s).1 ops))).
Proof.
  split.
  - intros s l c ops. apply run_contents.
  - intros s a ops E. apply run_contents.
    unfold get, read. rewrite E; cbn.
    by rewrite lookup_app_r, Nat.sub_diag.
Qed.

(** Tags added through the first reference, with other accessors called
    and changed in between, are all there, and nothing else is. *)
Example tags_accumulate :
  let '(l, s) := get get_included_tags startup in
  read l (run [Mutate l (add_tag "pets");
               Get get_excluded_operations;
               Mutate 1 (fun _ => PyTagDict {[ "op" := None ]});
               Get get_included_tags;
               Mutate l (add_tag "store")] s)
  = Some (PySet {[ "pets"; "store" ]}).
Proof. vm_compute. reflexivity. Qed.

End SingletonFacts.

(** ** [setup_client] *)

Module MainFacts.
Import Main.

(** X14. [setup_client] returns [None] when [get_client] returns, turns an
    exception of one of the four classes it names into a message that
    [main]'s test [if message:] takes as an error (it is not empty,
    whatever the url), and lets any other exception through. *)
Theorem setup_client_reports_handled_failures
    {schema : Type} (get_client : string -> option schema -> option raised)
    (url : string) (sch : option schema) :
  match get_client url sch with
  | None => setup_client get_client url sch = Return None
  | Some e =>
      if handled e then
        exists m, setup_client get_client url sch = Return (Some m)
                  /\ truthy (Some m) = true
      else setup_client get_client url sch = Propagate e
  end.
Proof.
  unfold setup_client, handled.
  destruct (get_client url sch) as [[c j h v]|]; [|done]; cbn.
  destruct c; cbn; [eauto|].
  destruct j; cbn; [eauto|].
  destruct h; cbn; [eauto|].
  destruct v; cbn; eauto.
Qed.

(** The clauses are tried in order: a connection error is reported as
    such even if it is also an instance of a later class. *)
Example connection_error_wins (url : string) :
  setup_client (schema := unit) (fun _ _ => Some (Raised true true true true)) url None
  = Return (Some "Unable to connect to server.").
Proof. reflexivity. Qed.

Example invalid_json_message :
  setup_client (schema := unit) (fun _ _ => Some (Raised false true false false))
    "http://localhost/swagger.json" None
  = Return (Some "Invalid swagger.json file. Please check to make sure the swagger file can be found at: http://localhost/swagger.json.").
Proof. reflexivity. Qed.

End MainFacts.

(** ** The injection engine *)

Section EngineFacts.
Context {W : Type}.
Variable funcs : oid -> function W.

Implicit Types (st : state W) (func f : oid) (args : list value)
  (kwargs kw : gmap string value) (names : list string) (t : list event).

(** *** Counting events *)

Lemma body_calls_app func t1 t2 :
  body_calls func (t1 ++ t2) = body_calls func t1 + body_calls func t2.
Proof. unfold body_calls. by rewrite List.filter_app, length_app. Qed.

Lemma factory_calls_app n t1 t2 :
  factory_calls n (t1 ++ t2) = factory_calls n t1 + factory_calls n t2.
Proof. unfold factory_calls. by rewrite List.filter_app, length_app. Qed.

Lemma only_factory_calls_no_body func t :
  only_factory_calls t -> body_calls func t = 0.
Proof.
  induction 1 as [|e t (n & f & ->) _ IH]; [done|].
  change (FactoryCall n f :: t) with ([FactoryCall n f] ++ t).
  by rewrite body_calls_app, IH.
Qed.

Lemma only_factory_calls_not_body func args kw t :
  only_factory_calls t -> BodyCall func args kw ∉ t.
Proof.
  intros Ht Hin. unfold only_factory_calls in Ht.
  rewrite Forall_forall in Ht. by destruct (Ht _ Hin) as (n & f & ?).
Qed.

(** *** Calls *)

Lemma call_inv f args kw st r st' :
  call funcs f args kw st = (r, st') ->
  mapping st' = mapping st /\ fuzz_cache st' = fuzz_cache st
  /\ trace st' = trace st
  /\ fn_body (funcs f) args kw (world st) = (r, world st').
Proof.
  unfold call. destruct (fn_body _ _ _ _) as [r0 w]. by intros [= <- <-].
Qed.

Lemma call_factory_inv n f st r st' :
  call_factory funcs n f st = (r, st') ->
  mapping st' = mapping st /\ fuzz_cache st' = fuzz_cache st
  /\ trace st' = trace st ++ [FactoryCall n f]
  /\ fn_body (funcs f) [] ∅ (world st) = (r, world st').
Proof. unfold call_factory. by intros (? & ? & ? & ?)%call_inv. Qed.

Lemma call_body_inv func args kw st r st' :
  call_body funcs func args kw st = (r, st') ->
  mapping st' = mapping st /\ fuzz_cache st' = fuzz_cache st
  /\ trace st' = trace st ++ [BodyCall func args kw]
  /\ fn_body (funcs func) args kw (world st) = (r, world st').
Proof. unfold call_body. by intros (? & ? & ? & ?)%call_inv. Qed.

(** *** The loop *)

(** The iterations at an index below [len(args)] do nothing. *)
Lemma inject_skip anns nargs index names kwargs st :
  inject funcs anns nargs index names kwargs st
  = inject funcs anns nargs (index `max` nargs)
      (drop (nargs - index) names) kwargs st.
Proof.
  revert index. induction names as [|n rest IH]; intros index.
  - by rewrite drop_nil.
  - cbn [inject]. destruct (index <? nargs)%nat eqn:E.
    + apply Nat.ltb_lt in E. rewrite IH.
      replace (nargs - index) with (S (nargs - S index)) by lia.
      cbn [drop]. by replace (S index `max` nargs) with (index `max` nargs) by lia.
    + apply Nat.ltb_ge in E.
      replace (nargs - index) with 0 by lia.
      replace (index `max` nargs) with index by lia.
      cbn [drop inject]. by rewrite (proj2 (Nat.ltb_ge _ _) E).
Qed.

(** One iteration past the positional arguments, unfolded. *)
Lemma inject_cons anns nargs index n rest kwargs st :
  nargs <= index ->
  inject funcs anns nargs index (n :: rest) kwargs st
  = match mapping st !! n with
    | None => (inl TypeError, st)
    | Some factory =>
        match call_factory funcs n factory st with
        | (Raise e, st1) => (inl e, st1)
        | (Ok v, st1) =>
            match coerce anns n v with
            | Raise e => (inl e, st1)
            | Ok v' =>
                inject funcs anns nargs (S index) rest (<[n := v']> kwargs) st1
            end
        end
    end.
Proof. intros H. cbn [inject]. by rewrite (proj2 (Nat.ltb_ge _ _) H). Qed.

(** What the loop leaves alone, and what it logs. *)
Lemma inject_frame anns nargs names : forall index kwargs st res st',
  nargs <= index ->
  inject funcs anns nargs index names kwargs st = (res, st') ->
  mapping st' = mapping st /\ fuzz_cache st' = fuzz_cache st
  /\ exists t, trace st' = trace st ++ t /\ only_factory_calls t
     /\ (forall n, n ∉ names -> factory_calls n t = 0).
Proof.
  induction names as [|n rest IH]; intros index kwargs st res st' Hle.
  - cbn. intros [= <- <-]. split; [done|]. split; [done|].
    exists []. rewrite app_nil_r. split; [done|]. split; [constructor | done].
  - rewrite inject_cons by done.
    assert (Hnil : exists t, trace st = trace st ++ t /\ only_factory_calls t
         /\ (forall m, m ∉ n :: rest -> factory_calls m t = 0)).
    { exists []. rewrite app_nil_r. split; [done|]. split; [constructor | done]. }
    destruct (mapping st !! n) as [f|] eqn:Hf; [|by intros [= <- <-]].
    destruct (call_factory funcs n f st) as [r st1] eqn:Hc.
    apply call_factory_inv in Hc as (Hm & Hfc & Ht & _).
    assert (Hcount : forall m, m ∉ n :: rest -> factory_calls m [FactoryCall n f] = 0).
    { intros m Hm'. unfold factory_calls; cbn.
      rewrite bool_decide_false; [done|]. intros ->. apply Hm'. by left. }
    assert (Hone : exists t, trace st1 = trace st ++ t /\ only_factory_calls t
         /\ (forall m, m ∉ n :: rest -> factory_calls m t = 0)).
    { exists [FactoryCall n f].
      split; [done|]. split; [|done]. repeat constructor; eauto. }
    destruct r as [v|e]; [|by intros [= <- <-]].
    destruct (coerce anns n v) as [v'|e]; [|by intros [= <- <-]].
    intros Hrec. apply IH in Hrec as (Hm2 & Hfc2 & t & Ht2 & Hof & Hcnt); [|lia].
    split; [congruence|]. split; [congruence|].
    exists (FactoryCall n f :: t). split; [|split].
    + rewrite Ht2, Ht, <- app_assoc. done.
    + constructor; eauto.
    + intros m Hm'. change (FactoryCall n f :: t) with ([FactoryCall n f] ++ t).
      rewrite factory_calls_app, Hcount, Hcnt; [done| |done].
      intros Hin. apply Hm'. by right.
Qed.

(** A completed loop: the keyword arguments it did not resolve are the
    caller's, every name it resolved is registered, and (the names
    being distinct) each was bound to what its factory returned, cast
    by [coerce], after exactly one call of that factory. *)
Lemma inject_success anns nargs names : forall index kwargs st kw' st',
  nargs <= index ->
  inject funcs anns nargs index names kwargs st = (inr kw', st') ->
  (forall k, k ∉ names -> kw' !! k = kwargs !! k)
  /\ (forall n, n ∈ names -> is_Some (mapping st !! n))
  /\ (NoDup names -> forall n, n ∈ names ->
        factory_calls n (trace st') = S (factory_calls n (trace st))
        /\ exists f w w' v v',
             mapping st !! n = Some f
             /\ fn_body (funcs f) [] ∅ w = (Ok v, w')
             /\ coerce anns n v = Ok v'
             /\ kw' !! n = Some v').
Proof.
  induction names as [|a rest IH]; intros index kwargs st kw' st' Hle.
  - cbn. intros [= <- <-]. split; [done|]. split; intros; set_solver.
  - rewrite inject_cons by done.
    destruct (mapping st !! a) as [f|] eqn:Hf; [|done].
    destruct (call_factory funcs a f st) as [r st1] eqn:Hc.
    apply call_factory_inv in Hc as (Hm & Hfc & Ht & Hb).
    destruct r as [v|e]; [|done].
    destruct (coerce anns a v) as [v'|e] eqn:Hco; [|done].
    intros Hrec.
    destruct (inject_frame _ _ _ _ _ _ _ _ (le_S _ _ Hle) Hrec)
      as (_ & _ & t & Htr & _ & Hcnt).
    apply IH in Hrec as (Hkeep & Hreg & Hres); [|lia].
    split; [|split].
    + intros k Hk. rewrite Hkeep by set_solver.
      apply lookup_insert_ne. set_solver.
    + intros n [->|Hn]%elem_of_cons; [by rewrite Hf|].
      rewrite <- Hm. by apply Hreg.
    + intros [Ha Hnd]%NoDup_cons n [->|Hn]%elem_of_cons.
      * split.
        -- rewrite Htr, Ht, !factory_calls_app, Hcnt by done.
           unfold factory_calls at 2; cbn. rewrite bool_decide_true by done.
           cbn. lia.
        -- exists f, (world st), (world st1), v, v'.
           rewrite Hkeep by done. by rewrite lookup_insert_eq.
      * destruct (Hres Hnd n Hn) as (Hc & f' & w & w' & u & u' & ? & ? & ? & ?).
        split.
        -- rewrite Hc, Ht, factory_calls_app.
           unfold factory_calls at 2; cbn.
           rewrite bool_decide_false by (intros ->; done). cbn. lia.
        -- exists f', w, w', u, u'. by rewrite <- Hm.
Qed.

(** A name without a fixture stops the loop with an exception; it is
    the [TypeError] of line 106 when no factory and no converter of
    the names to resolve raises. *)
Lemma inject_missing anns nargs names : forall index kwargs st res st' n,
  nargs <= index ->
  inject funcs anns nargs index names kwargs st = (res, st') ->
  n ∈ names -> mapping st !! n = None ->
  (exists e, res = inl e)
  /\ (resolves_cleanly funcs anns st names -> res = inl TypeError).
Proof.
  induction names as [|a rest IH]; intros index kwargs st res st' n Hle.
  - intros _ Hn. set_solver.
  - rewrite inject_cons by done. intros Hrun Hn Hnone.
    destruct (mapping st !! a) as [f|] eqn:Hf.
    2:{ injection Hrun as <- <-. eauto. }
    assert (Hrest : n ∈ rest).
    { apply elem_of_cons in Hn as [->|]; [congruence|done]. }
    destruct (call_factory funcs a f st) as [r st1] eqn:Hc.
    apply call_factory_inv in Hc as (Hm & Hfc & Ht & Hb).
    destruct r as [v|e].
    2:{ injection Hrun as <- <-. split; [eauto|].
        intros Hclean. destruct (Hclean a f (world st)) as (v & w' & v' & Hv & _);
          [set_solver | done | congruence]. }
    destruct (coerce anns a v) as [v'|e] eqn:Hco.
    2:{ injection Hrun as <- <-. split; [eauto|].
        intros Hclean. destruct (Hclean a f (world st)) as (u & w' & u' & Hu & Hcu);
          [set_solver | done |].
        rewrite Hb in Hu. injection Hu as <- <-. congruence. }
    apply IH with (n := n) in Hrun as [He Hty]; [|lia|done|by rewrite Hm].
    split; [done|]. intros Hclean. apply Hty.
    intros m g w Hm' Hg. apply (Hclean m g w); [set_solver|by rewrite <- Hm].
Qed.

(** *** The wrapper *)

Lemma wrapped_cached func args kwargs st :
  getattr_fuzz_cache st func <> VNone ->
  wrapped funcs func args kwargs st = (Ok (getattr_fuzz_cache st func), st).
Proof.
  intros H. unfold wrapped.
  by destruct (getattr_fuzz_cache st func).
Qed.

Lemma wrapped_uncached func args kwargs st :
  getattr_fuzz_cache st func = VNone ->
  wrapped funcs func args kwargs st = resolve_and_call funcs func args kwargs st.
Proof. intros H. unfold wrapped. by rewrite H. Qed.

(** The loop as [resolve_and_call] runs it, over the names to resolve. *)
Lemma resolve_and_call_unfold func args kwargs st :
  resolve_and_call funcs func args kwargs st
  = match inject funcs (fn_annotations (funcs func)) (length args) (length args)
            (resolved_names funcs func (length args)) kwargs st with
    | (inl e, st1) => (Raise e, st1)
    | (inr kw', st1) =>
        match call_body funcs func args kw' st1 with
        | (Raise e, st2) => (Raise e, st2)
        | (Ok v, st2) => (Ok v, setattr_fuzz_cache func v st2)
        end
    end.
Proof.
  unfold resolve_and_call, resolved_names. rewrite inject_skip.
  by rewrite Nat.sub_0_r, Nat.max_0_l.
Qed.

Lemma getattr_setattr func v st :
  getattr_fuzz_cache (setattr_fuzz_cache func v st) func = v.
Proof. unfold getattr_fuzz_cache, setattr_fuzz_cache; cbn. by rewrite lookup_insert_eq. Qed.

Lemma getattr_setattr_ne func g v st :
  func <> g ->
  getattr_fuzz_cache (setattr_fuzz_cache func v st) g = getattr_fuzz_cache st g.
Proof.
  intros H. unfold getattr_fuzz_cache, setattr_fuzz_cache; cbn.
  by rewrite lookup_insert_ne.
Qed.

Lemma getattr_ext st st' func :
  fuzz_cache st' = fuzz_cache st ->
  getattr_fuzz_cache st' func = getattr_fuzz_cache st func.
Proof. unfold getattr_fuzz_cache. by intros ->. Qed.

(** The three ways a call of the wrapper can go: a cache hit; a loop
    that ends with an exception; a completed loop followed by the call
    of [func], whose value, if it returns one, is stored. *)
Lemma wrapped_inv func args kwargs st r st' :
  wrapped funcs func args kwargs st = (r, st') ->
  let anns := fn_annotations (funcs func) in
  let names := resolved_names funcs func (length args) in
  (getattr_fuzz_cache st func <> VNone
   /\ r = Ok (getattr_fuzz_cache st func) /\ st' = st)
  \/ (getattr_fuzz_cache st func = VNone
      /\ exists e,
           inject funcs anns (length args) (length args) names kwargs st
           = (inl e, st')
           /\ r = Raise e)
  \/ (getattr_fuzz_cache st func = VNone
      /\ exists kw' st1 st2,
           inject funcs anns (length args) (length args) names kwargs st
           = (inr kw', st1)
           /\ call_body funcs func args kw' st1 = (r, st2)
           /\ st' = match r with
                    | Ok v => setattr_fuzz_cache func v st2
                    | Raise _ => st2
                    end).
Proof.
  intros Hw anns names.
  assert (Hd : getattr_fuzz_cache st func = VNone
               \/ getattr_fuzz_cache st func <> VNone)
    by (destruct (getattr_fuzz_cache st func); auto).
  destruct Hd as [Hc|Hc].
  - right. rewrite wrapped_uncached, resolve_and_call_unfold in Hw by done.
    fold anns names in Hw.
    destruct (inject funcs anns _ _ names kwargs st) as [[e|kw'] st1] eqn:Hi.
    + left. injection Hw as <- <-. eauto.
    + right. split; [done|]. exists kw', st1.
      destruct (call_body funcs func args kw' st1) as [[v|e] st2] eqn:Hb;
        injection Hw as <- <-; eauto.
  - left. rewrite wrapped_cached in Hw by done. by injection Hw as <- <-.
Qed.

(** The events one call of the wrapper adds: factory calls, then at most
    one call of [func], with the positional arguments as given and the
    keyword arguments the loop ended with. *)
Lemma wrapped_trace func args kwargs st r st' :
  wrapped funcs func args kwargs st = (r, st') ->
  exists t, trace st' = trace st ++ t
    /\ forall a kw, BodyCall func a kw ∈ t ->
         a = args
         /\ exists st1,
              inject funcs (fn_annotations (funcs func)) (length args)
                (length args) (resolved_names funcs func (length args))
                kwargs st = (inr kw, st1).
Proof.
  intros [(_ & _ & ->)|[(_ & e & Hi & _)|(_ & kw' & st1 & st2 & Hi & Hb & ->)]]%wrapped_inv.
  - exists []. rewrite app_nil_r. split; [done|]. intros a kw Hin. set_solver.
  - destruct (inject_frame _ _ _ _ _ _ _ _ (le_n _) Hi) as (_ & _ & t & Ht & Hof & _).
    exists t. split; [done|]. intros a kw Hin.
    by apply only_factory_calls_not_body in Hin.
  - destruct (inject_frame _ _ _ _ _ _ _ _ (le_n _) Hi) as (_ & _ & t & Ht & Hof & _).
    apply call_body_inv in Hb as (_ & _ & Hb & _).
    exists (t ++ [BodyCall func args kw']). split.
    + destruct r; cbn; rewrite Hb, Ht; by rewrite app_assoc.
    + intros a kw [Hin|Hin]%elem_of_app.
      * by apply only_factory_calls_not_body in Hin.
      * apply list_elem_of_singleton in Hin. injection Hin as -> ->. eauto.
Qed.

(** A name at an index covered by a positional argument is not one of the
    names to resolve, parameter names being distinct. *)
Lemma covered_not_resolved func nargs i n :
  NoDup (_get_injectable_variables (fn_code (funcs func))) ->
  i < nargs ->
  _get_injectable_variables (fn_code (funcs func)) !! i = Some n ->
  n ∉ resolved_names funcs func nargs.
Proof.
  intros Hnd Hi Hn Hin. unfold resolved_names in Hin.
  apply list_elem_of_lookup in Hin as [j Hj].
  rewrite lookup_drop in Hj.
  pose proof (NoDup_lookup _ _ _ _ Hnd Hn Hj). lia.
Qed.

Lemma resolved_names_NoDup func nargs :
  NoDup (_get_injectable_variables (fn_code (funcs func))) ->
  NoDup (resolved_names funcs func nargs).
Proof. intros H. unfold resolved_names. exact (sublist_NoDup _ _ H (sublist_drop _ _)). Qed.

(** *** Precedence of explicit arguments *)

(** C7. In any call of the wrapper, a parameter whose index is covered by
    a positional argument is skipped: no factory is called for its name,
    [func] receives the positional arguments exactly as given, and the
    keyword argument of that name is whatever the caller passed (nothing
    if the caller passed none). *)
Theorem positional_arguments_win func args kwargs st r st' :
  NoDup (_get_injectable_variables (fn_code (funcs func))) ->
  wrapped funcs func args kwargs st = (r, st') ->
  exists t, trace st' = trace st ++ t
    /\ forall i n,
         i < length args ->
         _get_injectable_variables (fn_code (funcs func)) !! i = Some n ->
         factory_calls n t = 0
         /\ forall a kw, BodyCall func a kw ∈ t ->
              a = args /\ kw !! n = kwargs !! n.
Proof.
  intros Hnd Hw.
  destruct (wrapped_trace _ _ _ _ _ _ Hw) as (t & Ht & Hbody).
  exists t. split; [done|]. intros i n Hi Hn.
  pose proof (covered_not_resolved _ _ _ _ Hnd Hi Hn) as Hnot.
  split.
  - apply wrapped_inv in Hw
      as [(_ & _ & ->)|[(_ & e & Hinj & _)|(_ & kw' & st1 & st2 & Hinj & Hb & ->)]].
    + assert (t = []) as -> by (apply (app_inv_head (trace st)); by rewrite app_nil_r).
      done.
    + destruct (inject_frame _ _ _ _ _ _ _ _ (le_n _) Hinj) as (_ & _ & t' & Ht' & _ & Hc).
      assert (t = t') as -> by (apply (app_inv_head (trace st)); congruence).
      by apply Hc.
    + destruct (inject_frame _ _ _ _ _ _ _ _ (le_n _) Hinj) as (_ & _ & t' & Ht' & _ & Hc).
      apply call_body_inv in Hb as (_ & _ & Hb & _).
      assert (t = t' ++ [BodyCall func args kw']) as ->.
      { apply (app_inv_head (trace st)). rewrite <- Ht, app_assoc, <- Ht', <- Hb.
        by destruct r. }
      rewrite factory_calls_app, Hc by done. done.
  - intros a kw Hin. destruct (Hbody a kw Hin) as (-> & st1 & Hinj).
    split; [done|].
    by apply (inject_success _ _ _ _ _ _ _ _ (le_n _) Hinj).
Qed.

(** C1, as the code has it.  Keyword arguments of the caller reach
    [func] unchanged unless they are named like a parameter the loop
    resolves (an injectable name at an index no positional argument
    covers).  For such a name, present among the caller's keywords or
    not, the registry holds a fixture, its factory has been called
    once, and [func] receives the value the factory produced, cast by
    the annotation, in place of the caller's. *)
Theorem caller_keywords_kept_unless_resolved func args kwargs st r st' :
  NoDup (_get_injectable_variables (fn_code (funcs func))) ->
  wrapped funcs func args kwargs st = (r, st') ->
  exists t, trace st' = trace st ++ t
    /\ forall a kw, BodyCall func a kw ∈ t ->
         (forall k, k ∉ resolved_names funcs func (length args) ->
            kw !! k = kwargs !! k)
         /\ (forall n, n ∈ resolved_names funcs func (length args) ->
               is_Some (mapping st !! n)
               /\ 1 <= factory_calls n t
               /\ exists f w w' v v',
                    mapping st !! n = Some f
                    /\ fn_body (funcs f) [] ∅ w = (Ok v, w')
                    /\ coerce (fn_annotations (funcs func)) n v = Ok v'
                    /\ kw !! n = Some v').
Proof.
  intros Hnd Hw.
  destruct (wrapped_trace _ _ _ _ _ _ Hw) as (t & Ht & Hbody).
  exists t. split; [done|]. intros a kw Hin.
  destruct (Hbody a kw Hin) as (-> & st1 & Hinj).
  destruct (inject_success _ _ _ _ _ _ _ _ (le_n _) Hinj) as (Hkeep & Hreg & Hres).
  split; [done|]. intros n Hn.
  destruct (Hres (resolved_names_NoDup _ _ Hnd) n Hn)
    as (Hcnt & f & w & w' & v & v' & Hf & Hv & Hco & Hkw).
  split; [by apply Hreg|]. split.
  - destruct (inject_frame _ _ _ _ _ _ _ _ (le_n _) Hinj) as (_ & _ & t1 & Ht1 & _ & _).
    rewrite Ht1, factory_calls_app in Hcnt.
    apply wrapped_inv in Hw
      as [(_ & _ & ->)|[(_ & e & Hinj' & _)|(_ & kw' & st1' & st2 & Hinj' & Hb & ->)]].
    + assert (t = []) as -> by (apply (app_inv_head (trace st)); by rewrite app_nil_r).
      set_solver.
    + congruence.
    + rewrite Hinj in Hinj'. injection Hinj' as <- <-.
      apply call_body_inv in Hb as (_ & _ & Hb & _).
      assert (t = t1 ++ [BodyCall func args kw]) as ->.
      { apply (app_inv_head (trace st)). rewrite <- Ht, app_assoc, <- Ht1, <- Hb.
        by destruct r. }
      rewrite factory_calls_app. lia.
  - exists f, w, w', v, v'. done.
Qed.

(** *** Coercion *)

(** C5. Whenever [func] is called, each parameter the loop resolved is
    bound to the value its fixture's factory returned, treated according
    to the annotation of the parameter: passed through the annotation as
    a converter when the annotation is not a generic alias, bound as it
    is when the annotation is a generic alias such as [List[int]] (and
    when there is no annotation). *)
Theorem fixture_values_are_coerced func args kwargs st r st' :
  NoDup (_get_injectable_variables (fn_code (funcs func))) ->
  wrapped funcs func args kwargs st = (r, st') ->
  exists t, trace st' = trace st ++ t
    /\ forall a kw n, BodyCall func a kw ∈ t ->
         n ∈ resolved_names funcs func (length args) ->
         exists f w w' v,
           mapping st !! n = Some f
           /\ fn_body (funcs f) [] ∅ w = (Ok v, w')
           /\ match fn_annotations (funcs func) !! n with
              | Some ann =>
                  if ann_is_generic ann then kw !! n = Some v
                  else exists v', ann_call ann v = Ok v' /\ kw !! n = Some v'
              | None => kw !! n = Some v
              end.
Proof.
  intros Hnd Hw.
  destruct (wrapped_trace _ _ _ _ _ _ Hw) as (t & Ht & Hbody).
  exists t. split; [done|]. intros a kw n Hin Hn.
  destruct (Hbody a kw Hin) as (-> & st1 & Hinj).
  destruct (inject_success _ _ _ _ _ _ _ _ (le_n _) Hinj) as (_ & _ & Hres).
  destruct (Hres (resolved_names_NoDup _ _ Hnd) n Hn)
    as (_ & f & w & w' & v & v' & Hf & Hv & Hco & Hkw).
  exists f, w, w', v. split; [done|]. split; [done|].
  unfold coerce in Hco.
  destruct (fn_annotations (funcs func) !! n) as [ann|].
  - destruct (ann_is_generic ann); cbn in Hco.
    + by injection Hco as ->.
    + eauto.
  - by injection Hco as ->.
Qed.

(** *** Missing fixtures *)

(** The loop over [l1 ++ l2] is the loop over [l1] followed, if it
    completes, by the loop over [l2]. *)
Lemma inject_app anns nargs l1 l2 : forall index kwargs st,
  nargs <= index ->
  inject funcs anns nargs index (l1 ++ l2) kwargs st
  = match inject funcs anns nargs index l1 kwargs st with
    | (inl e, st1) => (inl e, st1)
    | (inr kw1, st1) => inject funcs anns nargs (index + length l1) l2 kw1 st1
    end.
Proof.
  induction l1 as [|a l1 IH]; intros index kwargs st Hle.
  - cbn. by rewrite Nat.add_0_r.
  - rewrite <- app_comm_cons, !inject_cons by done.
    destruct (mapping st !! a) as [f|]; [|done].
    destruct (call_factory funcs a f st) as [[v|e] st1]; [|done].
    destruct (coerce anns a v) as [v'|e]; [|done].
    rewrite IH by lia. cbn [length].
    by replace (S index + length l1) with (index + S (length l1)) by lia.
Qed.

Lemma inject_exception_origin anns nargs names : forall index kwargs st e st',
  nargs <= index ->
  inject funcs anns nargs index names kwargs st = (inl e, st') ->
  (e = TypeError /\ exists n, n ∈ names /\ mapping st !! n = None)
  \/ (exists n f w w', n ∈ names /\ mapping st !! n = Some f
        /\ fn_body (funcs f) [] ∅ w = (Raise e, w'))
  \/ (exists n ann v, n ∈ names /\ anns !! n = Some ann
        /\ ann_is_generic ann = false /\ ann_call ann v = Raise e).
Proof.
  induction names as [|n rest IH]; intros index kwargs st e st' Hle; [done|].
  rewrite inject_cons by done.
  destruct (mapping st !! n) as [f|] eqn:Hf.
  2:{ intros [= <- <-]. left. split; [done|]. exists n. split; [by left|done]. }
  destruct (call_factory funcs n f st) as [r st1] eqn:Hc.
  apply call_factory_inv in Hc as (Hm & _ & _ & Hb).
  destruct r as [v|e0].
  2:{ intros [= <- <-]. right; left. exists n, f, (world st), (world st1).
      split; [by left|done]. }
  destruct (coerce anns n v) as [v'|e0] eqn:Hco.
  2:{ intros [= <- <-]. right; right. unfold coerce in Hco.
      destruct (anns !! n) as [ann|] eqn:Hann; [|done].
      destruct (ann_is_generic ann) eqn:Hg; [done|]. cbn in Hco.
      exists n, ann, v. split; [by left|done]. }
  intros Hrec. apply IH in Hrec as [(-> & m & Hm' & Hnone)|[Hfac|Hconv]]; [| | |lia].
  - left. split; [done|]. exists m. split; [by right|by rewrite <- Hm].
  - right; left. destruct Hfac as (m & g & w & w' & ? & ? & ?).
    exists m, g, w, w'. split; [by right|]. by rewrite <- Hm.
  - right; right. destruct Hconv as (m & ann & u & ? & ? & ? & ?).
    exists m, ann, u. split; [by right|done].
Qed.


(** C3, as the code has it.  With an empty cache, when a name [n] to
    resolve has no fixture the call raises and stores nothing; it has
    called factories only, never [func].  What it raises is decided by
    the loop over the names to resolve that come before [n].  If that
    loop completes (each earlier name has a fixture whose factory
    returns a value the converter accepts), the call raises the
    [TypeError] of line 106 for [n], in the state that loop left.  If it
    stops with an exception, the call raises that exception and never
    reaches [n]: it is line 106's [TypeError] for an earlier name
    without a fixture, or what the factory or the converter of an earlier
    name raised.  The names after [n] play no part. *)
Theorem missing_fixture_stops_the_call func args kwargs st r st' pre n post :
  getattr_fuzz_cache st func = VNone ->
  resolved_names funcs func (length args) = pre ++ n :: post ->
  mapping st !! n = None ->
  wrapped funcs func args kwargs st = (r, st') ->
  (exists e, r = Raise e)
  /\ fuzz_cache st' = fuzz_cache st
  /\ getattr_fuzz_cache st' func = VNone
  /\ (exists t, trace st' = trace st ++ t
        /\ only_factory_calls t /\ body_calls func t = 0)
  /\ match inject funcs (fn_annotations (funcs func)) (length args)
             (length args) pre kwargs st with
     | (inr _, st1) => r = Raise TypeError /\ st' = st1
     | (inl e, st1) =>
         r = Raise e /\ st' = st1
         /\ ((e = TypeError /\ exists m, m ∈ pre /\ mapping st !! m = None)
             \/ (exists m f w w', m ∈ pre /\ mapping st !! m = Some f
                   /\ fn_body (funcs f) [] ∅ w = (Raise e, w'))
             \/ (exists m ann v, m ∈ pre
                   /\ fn_annotations (funcs func) !! m = Some ann
                   /\ ann_is_generic ann = false
                   /\ ann_call ann v = Raise e))
     end.
Proof.
  intros Hc Hsplit Hnone Hw.
  assert (Hn : n ∈ resolved_names funcs func (length args)).
  { rewrite Hsplit. apply elem_of_app. right. by left. }
  apply wrapped_inv in Hw
    as [(Hc' & _)|[(_ & e & Hinj & ->)|(_ & kw' & st1 & st2 & Hinj & _)]];
    [done| |].
  - destruct (inject_frame _ _ _ _ _ _ _ _ (le_n _) Hinj) as (_ & Hfc & t & Ht & Hof & _).
    split; [eauto|]. split; [done|]. split; [by rewrite (getattr_ext _ _ _ Hfc)|].
    split; [exists t; eauto using only_factory_calls_no_body|].
    rewrite Hsplit, inject_app in Hinj by done.
    destruct (inject funcs (fn_annotations (funcs func)) (length args)
                (length args) pre kwargs st) as [[e1|kw1] st1] eqn:Hpre.
    + injection Hinj as -> ->. split; [done|]. split; [done|].
      exact (inject_exception_origin _ _ _ _ _ _ _ _ (le_n _) Hpre).
    + destruct (inject_frame _ _ _ _ _ _ _ _ (le_n _) Hpre) as (Hm & _).
      rewrite inject_cons in Hinj by lia. rewrite Hm, Hnone in Hinj.
      by injection Hinj as -> ->.
  - by destruct (inject_missing _ _ _ _ _ _ _ _ _ (le_n _) Hinj Hn Hnone) as [[e [=]] _].
Qed.

(** *** Caching *)

Lemma body_calls_singleton func args kw :
  body_calls func [BodyCall func args kw] = 1.
Proof. unfold body_calls; cbn. by rewrite bool_decide_true. Qed.

Lemma factory_calls_body n func args kw :
  factory_calls n [BodyCall func args kw] = 0.
Proof. done. Qed.

(** A call that goes through [func]: what it adds to the trace. *)
Lemma completed_call_counts func args kwargs st kw' st1 r st2 :
  inject funcs (fn_annotations (funcs func)) (length args) (length args)
    (resolved_names funcs func (length args)) kwargs st = (inr kw', st1) ->
  call_body funcs func args kw' st1 = (r, st2) ->
  exists t, trace st2 = trace st ++ t
    /\ body_calls func t = 1
    /\ (forall n, n ∉ resolved_names funcs func (length args) ->
          factory_calls n t = 0)
    /\ (NoDup (_get_injectable_variables (fn_code (funcs func))) ->
        forall n, n ∈ resolved_names funcs func (length args) ->
          factory_calls n t = 1).
Proof.
  intros Hinj Hb.
  destruct (inject_frame _ _ _ _ _ _ _ _ (le_n _) Hinj) as (_ & _ & t & Ht & Hof & Hzero).
  destruct (inject_success _ _ _ _ _ _ _ _ (le_n _) Hinj) as (_ & _ & Hres).
  apply call_body_inv in Hb as (_ & _ & Hb & _).
  exists (t ++ [BodyCall func args kw']). split; [|split; [|split]].
  - by rewrite Hb, Ht, app_assoc.
  - by rewrite body_calls_app, (only_factory_calls_no_body _ _ Hof), body_calls_singleton.
  - intros n Hn. by rewrite factory_calls_app, Hzero.
  - intros Hnd n Hn.
    destruct (Hres (resolved_names_NoDup _ _ Hnd) n Hn) as [Hcnt _].
    rewrite Ht, factory_calls_app in Hcnt.
    rewrite factory_calls_app, factory_calls_body. lia.
Qed.

(** A call that finds the cache empty either leaves the loop with an
    exception or runs, once more each, the factory of every resolved
    name and the body of [func]. *)
Lemma uncached_call_runs_again func args kwargs st r st' :
  getattr_fuzz_cache st func = VNone ->
  wrapped funcs func args kwargs st = (r, st') ->
  (exists e,
     inject funcs (fn_annotations (funcs func)) (length args) (length args)
       (resolved_names funcs func (length args)) kwargs st = (inl e, st')
     /\ r = Raise e)
  \/ runs_again funcs func args st st'.
Proof.
  intros Hc Hw.
  apply wrapped_inv in Hw
    as [(Hc' & _)|[(_ & e & Hinj & ->)|(_ & kw' & st1 & st2 & Hinj & Hb & ->)]];
    [done|left; eauto|right].
  destruct (completed_call_counts _ _ _ _ _ _ _ _ Hinj Hb) as (t & Ht & Hbc & _ & Ho).
  assert (Htr : trace (match r with
                       | Ok v => setattr_fuzz_cache func v st2
                       | Raise _ => st2
                       end) = trace st ++ t) by (by destruct r).
  split.
  - rewrite Htr, body_calls_app. lia.
  - intros Hnd n Hn. rewrite Htr, factory_calls_app, (Ho Hnd n Hn). lia.
Qed.

(** C4, as the code has it.  When a call of the wrapper returns a value
    other than [None], the next call, whatever its arguments, returns
    that value and changes nothing: no factory and no body runs.  If
    the first call started from an empty cache, the two calls together
    have run the body of [func] exactly once and the factory of each
    resolved name exactly once. *)
Theorem second_call_returns_cached_result
    func args kwargs args2 kwargs2 st v st1 :
  NoDup (_get_injectable_variables (fn_code (funcs func))) ->
  wrapped funcs func args kwargs st = (Ok v, st1) ->
  v <> VNone ->
  wrapped funcs func args2 kwargs2 st1 = (Ok v, st1)
  /\ (getattr_fuzz_cache st func = VNone ->
      exists t, trace st1 = trace st ++ t
        /\ body_calls func t = 1
        /\ (forall n, n ∈ resolved_names funcs func (length args) ->
              factory_calls n t = 1)
        /\ (forall n, n ∉ resolved_names funcs func (length args) ->
              factory_calls n t = 0)).
Proof.
  intros Hnd Hw Hv.
  apply wrapped_inv in Hw
    as [(Hc & [= ->] & ->)|[(_ & e & _ & [=])|(Hc & kw' & st1' & st2 & Hinj & Hb & ->)]].
  - split; [by apply wrapped_cached | done].
  - split.
    + rewrite wrapped_cached; rewrite getattr_setattr; done.
    + intros _.
      destruct (completed_call_counts _ _ _ _ _ _ _ _ Hinj Hb) as (t & Ht & Hbc & Hz & Ho).
      exists t. cbn. eauto.
Qed.

(** C8. When the loop has completed and the body of [func] raises, the
    wrapper raises that same exception, the state is the one the body
    left, nothing has been stored in the cache, and the next call goes
    through resolution again: unless its loop raises, it runs the
    factories and the body of [func] once more. *)
Theorem body_exception_is_not_cached func args kwargs st kw' st1 e st2 :
  getattr_fuzz_cache st func = VNone ->
  inject funcs (fn_annotations (funcs func)) (length args) 0
    (_get_injectable_variables (fn_code (funcs func))) kwargs st
  = (inr kw', st1) ->
  call_body funcs func args kw' st1 = (Raise e, st2) ->
  wrapped funcs func args kwargs st = (Raise e, st2)
  /\ fuzz_cache st2 = fuzz_cache st
  /\ getattr_fuzz_cache st2 func = VNone
  /\ (forall args2 kwargs2,
        wrapped funcs func args2 kwargs2 st2
        = resolve_and_call funcs func args2 kwargs2 st2)
  /\ (forall args2 kwargs2 r2 st3,
        wrapped funcs func args2 kwargs2 st2 = (r2, st3) ->
        (exists e2,
           inject funcs (fn_annotations (funcs func)) (length args2)
             (length args2) (resolved_names funcs func (length args2))
             kwargs2 st2 = (inl e2, st3)
           /\ r2 = Raise e2)
        \/ runs_again funcs func args2 st2 st3).
Proof.
  intros Hc Hinj Hb.
  assert (Hfc : fuzz_cache st2 = fuzz_cache st).
  { rewrite inject_skip, Nat.sub_0_r, Nat.max_0_l in Hinj.
    destruct (inject_frame _ _ _ _ _ _ _ _ (le_n _) Hinj) as (_ & Hfc & _).
    apply call_body_inv in Hb as (_ & Hb & _). congruence. }
  assert (Hc2 : getattr_fuzz_cache st2 func = VNone)
    by (by rewrite (getattr_ext _ _ _ Hfc)).
  split; [|split; [done|split; [done|split]]].
  - rewrite wrapped_uncached by done. unfold resolve_and_call.
    by rewrite Hinj, Hb.
  - intros args2 kwargs2. by apply wrapped_uncached.
  - intros args2 kwargs2 r2 st3. by apply uncached_call_runs_again.
Qed.

(** C10. A call of the wrapper that returns [None] found the cache empty,
    ran the body of [func] (and the factory of each resolved name) and
    left the cache empty again: the call after it goes through
    resolution and the body once more, with no [clear_cache] between. *)
Theorem none_result_is_never_cached func args kwargs st st' :
  wrapped funcs func args kwargs st = (Ok VNone, st') ->
  getattr_fuzz_cache st func = VNone
  /\ getattr_fuzz_cache st' func = VNone
  /\ body_calls func (trace st') = S (body_calls func (trace st))
  /\ (NoDup (_get_injectable_variables (fn_code (funcs func))) ->
      forall n, n ∈ resolved_names funcs func (length args) ->
        factory_calls n (trace st') = S (factory_calls n (trace st)))
  /\ forall args2 kwargs2,
       wrapped funcs func args2 kwargs2 st'
       = resolve_and_call funcs func args2 kwargs2 st'.
Proof.
  intros Hw.
  apply wrapped_inv in Hw
    as [(Hc & [= Hv] & _)|[(_ & e & _ & [=])|(Hc & kw' & st1 & st2 & Hinj & Hb & ->)]];
    [congruence|].
  assert (Hc' : getattr_fuzz_cache (setattr_fuzz_cache func VNone st2) func = VNone)
    by apply getattr_setattr.
  destruct (completed_call_counts _ _ _ _ _ _ _ _ Hinj Hb) as (t & Ht & Hbc & _ & Ho).
  split; [done|]. split; [done|].
  change (trace (setattr_fuzz_cache func VNone st2)) with (trace st2).
  split; [|split].
  - rewrite Ht, body_calls_app. lia.
  - intros Hnd n Hn. rewrite Ht, factory_calls_app, (Ho Hnd n Hn). lia.
  - intros args2 kwargs2. by apply wrapped_uncached.
Qed.

(** *** [clear_cache] *)

Lemma clear_loop_spec (l : list oid) : forall st,
  let st' := foldl (fun acc f => setattr_fuzz_cache f VNone acc) st l in
  mapping st' = mapping st /\ world st' = world st /\ trace st' = trace st
  /\ (forall f, f ∈ l -> fuzz_cache st' !! f = Some VNone)
  /\ (forall f, f ∉ l -> fuzz_cache st' !! f = fuzz_cache st !! f).
Proof.
  induction l as [|g l IH]; intros st; cbn.
  - do 3 (split; [done|]). split; [|done]. intros f Hf. set_solver.
  - destruct (IH (setattr_fuzz_cache g VNone st)) as (Hm & Hw & Ht & Hin & Hout).
    cbn in *. split; [done|]. split; [done|]. split; [done|]. split.
    + intros f Hf. destruct (decide (f ∈ l)) as [?|Hnl]; [by apply Hin|].
      rewrite Hout by done.
      apply elem_of_cons in Hf as [->|?]; [|done]. apply lookup_insert_eq.
    + intros f Hf. apply not_elem_of_cons in Hf as [Hne Hnl].
      rewrite Hout by done. by apply lookup_insert_ne.
Qed.


(** ** Further properties of the engine *)

(** *** What a call stores *)

(** X2. Whatever a call of the wrapper returns is what the cache slot of
    [func] holds afterwards, hit or miss. *)
Theorem returned_value_is_the_cached_value func args kwargs st v st' :
  wrapped funcs func args kwargs st = (Ok v, st') ->
  getattr_fuzz_cache st' func = v.
Proof.
  intros [(_ & [= ->] & ->)|[(_ & e & _ & [=])|(_ & kw' & st1 & st2 & _ & _ & ->)]]%wrapped_inv.
  - done.
  - apply getattr_setattr.
Qed.

(** *** Calls that need no fixture *)

(** X4. When the positional arguments cover every injectable name, a call
    from an empty cache does not look at the registry: it calls [func]
    with the arguments exactly as given and stores what it returns. *)
Theorem all_positional_skips_registry func args kwargs st :
  getattr_fuzz_cache st func = VNone ->
  length (_get_injectable_variables (fn_code (funcs func))) <= length args ->
  wrapped funcs func args kwargs st
  = match call_body funcs func args kwargs st with
    | (Raise e, st2) => (Raise e, st2)
    | (Ok v, st2) => (Ok v, setattr_fuzz_cache func v st2)
    end.
Proof.
  intros Hc Hlen. rewrite wrapped_uncached, resolve_and_call_unfold by done.
  unfold resolved_names. by rewrite drop_ge.
Qed.

(** *** [clear_cache] once more *)

Lemma state_eq (st1 st2 : state W) :
  mapping st1 = mapping st2 -> fuzz_cache st1 = fuzz_cache st2 ->
  world st1 = world st2 -> trace st1 = trace st2 -> st1 = st2.
Proof. destruct st1, st2; cbn. by intros -> -> -> ->. Qed.

(** X9. Clearing twice is clearing once. *)
Theorem clear_cache_idempotent (st : state W) :
  clear_cache (clear_cache st) = clear_cache st.
Proof.
  destruct (clear_loop_spec (map_to_list (mapping st)).*2 st)
    as (Hm & Hw & Ht & Hin & Hout).
  fold (clear_cache st) in Hm, Hw, Ht, Hin, Hout.
  destruct (clear_loop_spec (map_to_list (mapping (clear_cache st))).*2 (clear_cache st))
    as (Hm2 & Hw2 & Ht2 & Hin2 & Hout2).
  fold (clear_cache (clear_cache st)) in Hm2, Hw2, Ht2, Hin2, Hout2.
  apply state_eq; [done| |done|done].
  apply map_eq. intros f. rewrite Hm in Hin2, Hout2.
  destruct (decide (f ∈ (map_to_list (mapping st)).*2)) as [Hf|Hf].
  - by rewrite Hin2, Hin.
  - by rewrite Hout2.
Qed.

(** X10. A wrapper around a function that is not a value of the registry is
    out of [clear_cache]'s reach: if its cache held a value before, the
    call after [clear_cache] still returns that value and runs
    nothing. *)
Theorem unregistered_wrapper_survives_clear_cache func args kwargs st :
  (forall n, mapping st !! n <> Some func) ->
  getattr_fuzz_cache st func <> VNone ->
  wrapped funcs func args kwargs (clear_cache st)
  = (Ok (getattr_fuzz_cache st func), clear_cache st).
Proof.
  intros Hreg Hc.
  destruct (clear_loop_spec (map_to_list (mapping st)).*2 st)
    as (_ & _ & _ & _ & Hout).
  fold (clear_cache st) in Hout.
  assert (Hsame : getattr_fuzz_cache (clear_cache st) func
                  = getattr_fuzz_cache st func).
  { unfold getattr_fuzz_cache. rewrite Hout; [done|].
    intros ([n g] & -> & Hng%elem_of_map_to_list)%list_elem_of_fmap.
    by apply (Hreg n). }
  rewrite wrapped_cached; rewrite Hsame; done.
Qed.

(** *** The order of the calls *)

Lemma factory_events_cons m n f rest :
  m !! n = Some f ->
  factory_events m (n :: rest) = FactoryCall n f :: factory_events m rest.
Proof. intros H. unfold factory_events; cbn. by rewrite H. Qed.

(** The loop calls the factories of a prefix of the names, in order, and
    of all of them when it completes. *)
Lemma inject_trace_shape anns nargs names : forall index kwargs st res st',
  nargs <= index ->
  inject funcs anns nargs index names kwargs st = (res, st') ->
  exists j, j <= length names
    /\ trace st' = trace st ++ factory_events (mapping st) (take j names)
    /\ length (factory_events (mapping st) (take j names)) = j
    /\ (forall kw, res = inr kw -> j = length names).
Proof.
  induction names as [|n rest IH]; intros index kwargs st res st' Hle.
  - cbn. intros [= <- <-]. exists 0. cbn. by rewrite app_nil_r.
  - rewrite inject_cons by done.
    destruct (mapping st !! n) as [f|] eqn:Hf.
    2:{ intros [= <- <-]. exists 0. cbn. rewrite app_nil_r.
        do 3 (split; [done || lia|]). intros kw [=]. }
    destruct (call_factory funcs n f st) as [r st1] eqn:Hc.
    apply call_factory_inv in Hc as (Hm & _ & Ht & _).
    assert (Hone : exists j, j <= length (n :: rest)
      /\ trace st1 = trace st ++ factory_events (mapping st) (take j (n :: rest))
      /\ length (factory_events (mapping st) (take j (n :: rest))) = j).
    { exists 1. cbn [take length]. rewrite (factory_events_cons _ _ _ _ Hf).
      split; [lia|]. by split. }
    destruct r as [v|e].
    2:{ intros [= <- <-]. destruct Hone as (j & ? & ? & ?). exists j.
        do 3 (split; [done|]). intros kw [=]. }
    destruct (coerce anns n v) as [v'|e].
    2:{ intros [= <- <-]. destruct Hone as (j & ? & ? & ?). exists j.
        do 3 (split; [done|]). intros kw [=]. }
    intros Hrec. apply IH in Hrec as (j & Hj & Htr & Hlen & Hall); [|lia].
    rewrite Hm in Htr, Hlen.
    exists (S j). cbn [take length]. rewrite (factory_events_cons _ _ _ _ Hf).
    split; [lia|]. split; [|split].
    + rewrite Htr, Ht, <- app_assoc. done.
    + cbn. by rewrite Hlen.
    + intros kw Hkw. by rewrite (Hall kw Hkw).
Qed.

(** X5. A call from an empty cache that returns a value has called, in this
    order: the registered factory of each name to resolve, in the order
    of the parameters, then [func], once, with the positional arguments
    as given. *)
Theorem completed_call_trace func args kwargs st v st' :
  getattr_fuzz_cache st func = VNone ->
  wrapped funcs func args kwargs st = (Ok v, st') ->
  let names := resolved_names funcs func (length args) in
  length (factory_events (mapping st) names) = length names
  /\ exists kw',
       trace st' = trace st ++ factory_events (mapping st) names
                     ++ [BodyCall func args kw'].
Proof.
  intros Hc Hw names.
  apply wrapped_inv in Hw
    as [(Hc' & _)|[(_ & e & _ & [=])|(_ & kw' & st1 & st2 & Hi & Hb & ->)]];
    [done|].
  destruct (inject_trace_shape _ _ _ _ _ _ _ _ (le_n _) Hi) as (j & _ & Ht & Hlen & Hall).
  rewrite (Hall kw' eq_refl) in Ht, Hlen. fold names in Ht, Hlen.
  rewrite firstn_all in Ht, Hlen.
  apply call_body_inv in Hb as (_ & _ & Hb & _).
  split; [done|]. exists kw'. cbn. by rewrite Hb, Ht, <- app_assoc.
Qed.

(** X6. A call that raises has called the factories of the first [j] names
    to resolve and of no later one; [func] was called, after all of
    them, only if it is [func] that raised. *)
Theorem failed_call_trace func args kwargs st e st' :
  wrapped funcs func args kwargs st = (Raise e, st') ->
  let names := resolved_names funcs func (length args) in
  exists j, j <= length names
    /\ length (factory_events (mapping st) (take j names)) = j
    /\ (trace st' = trace st ++ factory_events (mapping st) (take j names)
        \/ j = length names
           /\ exists kw' w w',
                fn_body (funcs func) args kw' w = (Raise e, w')
                /\ trace st' = trace st ++ factory_events (mapping st) names
                                 ++ [BodyCall func args kw']).
Proof.
  intros Hw names.
  apply wrapped_inv in Hw
    as [(_ & [=] & _)|[(_ & e' & Hi & _)|(_ & kw' & st1 & st2 & Hi & Hb & ->)]].
  - destruct (inject_trace_shape _ _ _ _ _ _ _ _ (le_n _) Hi) as (j & Hj & Ht & Hlen & _).
    exists j. eauto.
  - destruct (inject_trace_shape _ _ _ _ _ _ _ _ (le_n _) Hi) as (j & Hj & Ht & Hlen & Hall).
    pose proof (Hall kw' eq_refl) as ->. fold names in Ht, Hlen |- *.
    exists (length names). split; [done|]. split; [done|]. right. split; [done|].
    rewrite firstn_all in Ht.
    apply call_body_inv in Hb as (_ & _ & Hb & Hbody).
    exists kw', (world st1), (world st2). split; [done|].
    by rewrite Hb, Ht, <- app_assoc.
Qed.

(** *** Where an exception comes from *)

(** X7. An exception that leaves the wrapper is the [TypeError] of line 106
    for a name without a fixture, or was raised by the factory of a
    name to resolve, by the annotation of such a name used as a
    converter, or by [func] itself: the wrapper raises nothing else and
    swallows nothing. *)
Theorem exception_origin func args kwargs st e st' :
  wrapped funcs func args kwargs st = (Raise e, st') ->
  let names := resolved_names funcs func (length args) in
  (e = TypeError /\ exists n, n ∈ names /\ mapping st !! n = None)
  \/ (exists n f w w', n ∈ names /\ mapping st !! n = Some f
        /\ fn_body (funcs f) [] ∅ w = (Raise e, w'))
  \/ (exists n ann v, n ∈ names /\ fn_annotations (funcs func) !! n = Some ann
        /\ ann_is_generic ann = false /\ ann_call ann v = Raise e)
  \/ (exists kw w w', fn_body (funcs func) args kw w = (Raise e, w')).
Proof.
  intros Hw names.
  apply wrapped_inv in Hw
    as [(_ & [=] & _)|[(_ & e' & Hi & [= <-])|(_ & kw' & st1 & st2 & Hi & Hb & _)]].
  - destruct (inject_exception_origin _ _ _ _ _ _ _ _ (le_n _) Hi) as [?|[?|?]]; eauto.
  - apply call_body_inv in Hb as (_ & _ & _ & Hb). do 3 right. eauto.
Qed.

(** *** Keyword-only parameters behind a catch-all *)

Lemma injectable_of_signature (s : signature) :
  _get_injectable_variables (code_of s) = sig_positional s ++ sig_kwonly s.
Proof.
  unfold _get_injectable_variables, code_of; cbn.
  rewrite <- length_app, app_assoc. apply take_app_length.
Qed.

(** A name the loop does not resolve gets no factory call, and [func]
    receives for it what the caller passed. *)
Lemma unresolved_name_untouched func args kwargs st r st' n :
  n ∉ resolved_names funcs func (length args) ->
  wrapped funcs func args kwargs st = (r, st') ->
  exists t, trace st' = trace st ++ t
    /\ factory_calls n t = 0
    /\ forall a kw, BodyCall func a kw ∈ t -> kw !! n = kwargs !! n.
Proof.
  intros Hn Hw.
  destruct (wrapped_trace _ _ _ _ _ _ Hw) as (t & Ht & Hbody).
  exists t. split; [done|]. split.
  - apply wrapped_inv in Hw
      as [(_ & _ & ->)|[(_ & e & Hinj & _)|(_ & kw' & st1 & st2 & Hinj & Hb & ->)]].
    + assert (t = []) as -> by (apply (app_inv_head (trace st)); by rewrite app_nil_r).
      done.
    + destruct (inject_frame _ _ _ _ _ _ _ _ (le_n _) Hinj) as (_ & _ & t' & Ht' & _ & Hc).
      assert (t = t') as -> by (apply (app_inv_head (trace st)); congruence).
      by apply Hc.
    + destruct (inject_frame _ _ _ _ _ _ _ _ (le_n _) Hinj) as (_ & _ & t' & Ht' & _ & Hc).
      apply call_body_inv in Hb as (_ & _ & Hb & _).
      assert (t = t' ++ [BodyCall func args kw']) as ->.
      { apply (app_inv_head (trace st)). rewrite <- Ht, app_assoc, <- Ht', <- Hb.
        by destruct r. }
      rewrite factory_calls_app, Hc by done. done.
  - intros a kw Hin. destruct (Hbody a kw Hin) as (-> & st1 & Hinj).
    by apply (inject_success _ _ _ _ _ _ _ _ (le_n _) Hinj).
Qed.

(** X8. For a function with a catch-all [*args], positional arguments beyond
    the positional parameters count against the keyword-only ones: with
    [k] such arguments, the first [k] keyword-only parameters are not
    injected (no factory is called for them and [func] receives for
    them only what the caller passed by keyword). *)
Theorem extra_positionals_suppress_keyword_only
    func (s : signature) args kwargs st r st' i n :
  fn_code (funcs func) = code_of s ->
  NoDup (sig_positional s ++ sig_kwonly s) ->
  length (sig_positional s) + i < length args ->
  sig_kwonly s !! i = Some n ->
  wrapped funcs func args kwargs st = (r, st') ->
  exists t, trace st' = trace st ++ t
    /\ factory_calls n t = 0
    /\ forall a kw, BodyCall func a kw ∈ t -> kw !! n = kwargs !! n.
Proof.
  intros Hcode Hnd Hi Hn Hw.
  eapply unresolved_name_untouched; [|exact Hw].
  apply (covered_not_resolved _ _ (length (sig_positional s) + i)).
  - by rewrite Hcode, injectable_of_signature.
  - done.
  - rewrite Hcode, injectable_of_signature.
    rewrite lookup_app_r by lia.
    by replace (length (sig_positional s) + i - length (sig_positional s)) with i by lia.
Qed.

End EngineFacts.

(** ** The engine at work *)

Section Runs.
Import Examples.

(** The specification's tests. *)

Example hello_first_call :
  wrapped funcs 1 [] ∅ st0 = (Ok (VStr "hello freddy"), after_hello).
Proof. vm_compute. reflexivity. Qed.

Example hello_second_call :
  wrapped funcs 1 [] ∅ after_hello = (Ok (VStr "hello freddy"), after_hello).
Proof. vm_compute. reflexivity. Qed.

Example hello_bob :
  wrapped funcs 1 [VStr "bob"] ∅ st0 = (Ok (VStr "hello bob"), after_bob).
Proof. vm_compute. reflexivity. Qed.

Example g_missing :
  wrapped funcs 6 [] ∅ st0 = (Raise TypeError, st0).
Proof. vm_compute. reflexivity. Qed.

Example h_amount :
  wrapped funcs 3 [] ∅ st0 = (Ok (VInt 6), after_h).
Proof. vm_compute. reflexivity. Qed.

Example k_items :
  wrapped funcs 5 [] ∅ st0 = (Ok (VList [VInt 1; VInt 2; VInt 3]), after_k).
Proof. vm_compute. reflexivity. Qed.

Example greeting_cleared_and_called_again :
  wrapped funcs 12 [] ∅ st0 = (Ok (VStr "hello freddy"), after_greeting)
  /\ clear_cache after_greeting = after_greeting_cleared
  /\ wrapped funcs 12 [] ∅ after_greeting_cleared
     = (Ok (VStr "hello freddy"), after_greeting_again)
  /\ body_calls 12 (trace after_greeting_again) = 2
  /\ factory_calls "name" (trace after_greeting_again) = 2.
Proof. repeat split; vm_compute; reflexivity. Qed.

(** [hello] is wrapped but not registered: [clear_cache] leaves its
    cache as it is. *)
Example unregistered_wrapper_keeps_its_cache :
  getattr_fuzz_cache (clear_cache after_hello) 1 = VStr "hello freddy".
Proof. vm_compute. reflexivity. Qed.

(** *** Where the code departs from the specification *)

(** Against C1: [hello(name='bob')].  The name [name] is injectable and
    among the caller's keywords, yet its factory is called and [hello]
    receives ['freddy'] in place of ['bob']; and [g(missing=1)] still
    raises for want of a fixture. *)
Lemma keyword_argument_is_overwritten :
  "name" ∈ _get_injectable_variables (fn_code (funcs 1))
  /\ ({[ "name" := VStr "bob" ]} : gmap string value) !! "name" = Some (VStr "bob")
  /\ wrapped funcs 1 [] {[ "name" := VStr "bob" ]} st0
     = (Ok (VStr "hello freddy"), after_hello)
  /\ trace after_hello
     = [FactoryCall "name" 0; BodyCall 1 [] {[ "name" := VStr "freddy" ]}]
  /\ ({[ "name" := VStr "freddy" ]} : gmap string value) !! "name"
     <> Some (VStr "bob")
  /\ wrapped funcs 6 [] {[ "missing" := VInt 1 ]} st0 = (Raise TypeError, st0).
Proof.
  split; [vm_compute; apply list_elem_of_here|].
  split; [vm_compute; reflexivity|].
  split; [vm_compute; reflexivity|].
  split; [reflexivity|].
  split; [vm_compute; discriminate|].
  vm_compute; reflexivity.
Qed.

(** Against C3: [two(word: int, missing)].  [missing] has no fixture
    and the cache is empty, but the call raises the [ValueError] of
    [int('x')], not the missing-fixture [TypeError]. *)
Lemma missing_fixture_hidden_by_earlier_failure :
  getattr_fuzz_cache st0 10 = VNone
  /\ "missing" ∈ resolved_names funcs 10 0
  /\ mapping st0 !! "missing" = None
  /\ wrapped funcs 10 [] ∅ st0 = (Raise ValueError, after_two)
  /\ Raise ValueError <> Raise TypeError.
Proof.
  split; [vm_compute; reflexivity|].
  split; [vm_compute; apply list_elem_of_further, list_elem_of_here|].
  split; [vm_compute; reflexivity|].
  split; [vm_compute; reflexivity|discriminate].
Qed.

(** Against C4: [noop()] twice.  The first call succeeds, nothing clears
    the cache, and the body runs in both calls. *)
Lemma none_result_runs_body_twice :
  wrapped funcs 7 [] ∅ st0 = (Ok VNone, after_noop)
  /\ wrapped funcs 7 [] ∅ after_noop = (Ok VNone, after_noop_twice)
  /\ body_calls 7 (trace after_noop_twice) = 2
  /\ world after_noop_twice <> world after_noop.
Proof.
  split; [vm_compute; reflexivity|].
  split; [vm_compute; reflexivity|].
  split; [vm_compute; reflexivity|vm_compute; discriminate].
Qed.

(** *** The theorems at work *)

Lemma hello_params_distinct :
  NoDup (_get_injectable_variables (fn_code (funcs 1))).
Proof. vm_compute. apply NoDup_singleton. Defined.

Lemma caller_keywords_kept_unless_resolved_witness :
  NoDup (_get_injectable_variables (fn_code (funcs 1)))
  /\ wrapped funcs 1 [] {[ "name" := VStr "bob" ]} st0
     = (Ok (VStr "hello freddy"), after_hello)
  /\ exists t, trace after_hello = trace st0 ++ t
       /\ forall a kw, BodyCall 1 a kw ∈ t ->
            (forall k, k ∉ resolved_names funcs 1 (length (@nil value)) ->
               kw !! k = ({[ "name" := VStr "bob" ]} : gmap string value) !! k)
            /\ (forall n, n ∈ resolved_names funcs 1 (length (@nil value)) ->
                  is_Some (mapping st0 !! n)
                  /\ 1 <= factory_calls n t
                  /\ exists f w w' v v',
                       mapping st0 !! n = Some f
                       /\ fn_body (funcs f) [] ∅ w = (Ok v, w')
                       /\ coerce (fn_annotations (funcs 1)) n v = Ok v'
                       /\ kw !! n = Some v').
Proof.
  assert (H2 : wrapped funcs 1 [] {[ "name" := VStr "bob" ]} st0
               = (Ok (VStr "hello freddy"), after_hello))
    by (vm_compute; reflexivity).
  split; [exact hello_params_distinct|]. split; [exact H2|].
  exact (caller_keywords_kept_unless_resolved funcs 1 [] _ st0 _ _
           hello_params_distinct H2).
Defined.

Lemma positional_arguments_win_witness :
  NoDup (_get_injectable_variables (fn_code (funcs 1)))
  /\ wrapped funcs 1 [VStr "bob"] ∅ st0 = (Ok (VStr "hello bob"), after_bob)
  /\ exists t, trace after_bob = trace st0 ++ t
       /\ forall i n,
            i < length [VStr "bob"] ->
            _get_injectable_variables (fn_code (funcs 1)) !! i = Some n ->
            factory_calls n t = 0
            /\ forall a kw, BodyCall 1 a kw ∈ t ->
                 a = [VStr "bob"]
                 /\ kw !! n = (∅ : gmap string value) !! n.
Proof.
  assert (H2 : wrapped funcs 1 [VStr "bob"] ∅ st0
               = (Ok (VStr "hello bob"), after_bob))
    by (vm_compute; reflexivity).
  split; [exact hello_params_distinct|]. split; [exact H2|].
  exact (positional_arguments_win funcs 1 [VStr "bob"] ∅ st0 _ _
           hello_params_distinct H2).
Defined.

Lemma fixture_values_are_coerced_witness :
  NoDup (_get_injectable_variables (fn_code (funcs 3)))
  /\ wrapped funcs 3 [] ∅ st0 = (Ok (VInt 6), after_h)
  /\ exists t, trace after_h = trace st0 ++ t
       /\ forall a kw n, BodyCall 3 a kw ∈ t ->
            n ∈ resolved_names funcs 3 (length (@nil value)) ->
            exists f w w' v,
              mapping st0 !! n = Some f
              /\ fn_body (funcs f) [] ∅ w = (Ok v, w')
              /\ match fn_annotations (funcs 3) !! n with
                 | Some ann =>
                     if ann_is_generic ann then kw !! n = Some v
                     else exists v', ann_call ann v = Ok v' /\ kw !! n = Some v'
                 | None => kw !! n = Some v
                 end.
Proof.
  assert (H1 : NoDup (_get_injectable_variables (fn_code (funcs 3))))
    by (vm_compute; apply NoDup_singleton).
  assert (H2 : wrapped funcs 3 [] ∅ st0 = (Ok (VInt 6), after_h))
    by (vm_compute; reflexivity).
  split; [exact H1|]. split; [exact H2|].
  exact (fixture_values_are_coerced funcs 3 [] ∅ st0 _ _ H1 H2).
Defined.

(** The specification's coercion tests, read off the arguments [h] and
    [k] were called with. *)
Example amount_is_cast_and_items_are_not :
  py_int (VStr "5") = Ok (VInt 5)
  /\ BodyCall 3 [] {[ "amount" := VInt 5 ]} ∈ trace after_h
  /\ BodyCall 5 [] {[ "items" := VList [VInt 1; VInt 2; VInt 3] ]} ∈ trace after_k.
Proof.
  split; [reflexivity|].
  split; apply list_elem_of_further, list_elem_of_here.
Qed.

Lemma missing_fixture_stops_the_call_witness :
  getattr_fuzz_cache st0 11 = VNone
  /\ resolved_names funcs 11 (length (@nil value)) = ["name"] ++ "missing" :: []
  /\ mapping st0 !! "missing" = None
  /\ wrapped funcs 11 [] ∅ st0 = (Raise TypeError, after_pair)
  /\ (exists e, Raise TypeError = Raise e)
  /\ fuzz_cache after_pair = fuzz_cache st0
  /\ getattr_fuzz_cache after_pair 11 = VNone
  /\ (exists t, trace after_pair = trace st0 ++ t
        /\ only_factory_calls t /\ body_calls 11 t = 0)
  /\ match inject funcs (fn_annotations (funcs 11)) (length (@nil value))
             (length (@nil value)) ["name"] ∅ st0 with
     | (inr _, st1) => Raise TypeError = Raise TypeError /\ after_pair = st1
     | (inl e, st1) =>
         Raise TypeError = Raise e /\ after_pair = st1
         /\ ((e = TypeError
              /\ exists m, m ∈ ["name"] /\ mapping st0 !! m = None)
             \/ (exists m f w w', m ∈ ["name"] /\ mapping st0 !! m = Some f
                   /\ fn_body (funcs f) [] ∅ w = (Raise e, w'))
             \/ (exists m ann v, m ∈ ["name"]
                   /\ fn_annotations (funcs 11) !! m = Some ann
                   /\ ann_is_generic ann = false
                   /\ ann_call ann v = Raise e))
     end.
Proof.
  assert (H1 : getattr_fuzz_cache st0 11 = VNone) by (vm_compute; reflexivity).
  assert (H2 : resolved_names funcs 11 (length (@nil value))
               = ["name"] ++ "missing" :: []) by reflexivity.
  assert (H3 : mapping st0 !! "missing" = None) by (vm_compute; reflexivity).
  assert (H4 : wrapped funcs 11 [] ∅ st0 = (Raise TypeError, after_pair))
    by (vm_compute; reflexivity).
  split; [exact H1|]. split; [exact H2|]. split; [exact H3|]. split; [exact H4|].
  exact (missing_fixture_stops_the_call funcs 11 [] ∅ st0 _ _
           ["name"] "missing" [] H1 H2 H3 H4).
Defined.

(** In [pair()] the loop over the names before [missing] completes: the
    factory of [name] returns and nothing is cast. *)
Example pair_loop_before_missing :
  inject funcs (fn_annotations (funcs 11)) 0 0 ["name"] ∅ st0
  = (inr {[ "name" := VStr "freddy" ]}, after_pair).
Proof. vm_compute. reflexivity. Qed.

(** In [two()] it stops at the converter of [word]. *)
Example two_loop_before_missing :
  inject funcs (fn_annotations (funcs 10)) 0 0 ["word"] ∅ st0
  = (inl ValueError, after_two).
Proof. vm_compute. reflexivity. Qed.

(** In [pair()] the factory of [name] returns and nothing is cast, so
    the error is the missing-fixture [TypeError]. *)
Example pair_resolves_cleanly :
  resolves_cleanly funcs (fn_annotations (funcs 11)) st0
    (resolved_names funcs 11 0).
Proof.
  intros m f w Hm Hf. change (resolved_names funcs 11 0) with ["name"; "missing"] in Hm.
  apply elem_of_cons in Hm as [->|Hm].
  - vm_compute in Hf. injection Hf as <-.
    exists (VStr "freddy"), (S w), (VStr "freddy"). split; reflexivity.
  - apply list_elem_of_singleton in Hm as ->. vm_compute in Hf. discriminate.
Qed.

(** [late()]: the name without a fixture comes first, so the call
    raises line 106's [TypeError] at once, although the converter of
    [word] would reject ['x']. *)
Example missing_name_first :
  wrapped Ordering.funcs 0 [] ∅ Ordering.st0 = (Raise TypeError, Ordering.st0)
  /\ inject Ordering.funcs (fn_annotations (Ordering.funcs 0)) 0 0 ["word"] ∅
       Ordering.st0
     = (inl ValueError,
        {| mapping := {[ "word" := 1 ]}; fuzz_cache := ∅; world := tt;
           trace := [FactoryCall "word" 1] |}).
Proof. split; vm_compute; reflexivity. Qed.

Lemma second_call_returns_cached_result_witness :
  NoDup (_get_injectable_variables (fn_code (funcs 1)))
  /\ wrapped funcs 1 [] ∅ st0 = (Ok (VStr "hello freddy"), after_hello)
  /\ VStr "hello freddy" <> VNone
  /\ wrapped funcs 1 [] ∅ after_hello = (Ok (VStr "hello freddy"), after_hello)
  /\ (getattr_fuzz_cache st0 1 = VNone ->
      exists t, trace after_hello = trace st0 ++ t
        /\ body_calls 1 t = 1
        /\ (forall n, n ∈ resolved_names funcs 1 (length (@nil value)) ->
              factory_calls n t = 1)
        /\ (forall n, n ∉ resolved_names funcs 1 (length (@nil value)) ->
              factory_calls n t = 0)).
Proof.
  assert (H2 : wrapped funcs 1 [] ∅ st0 = (Ok (VStr "hello freddy"), after_hello))
    by (vm_compute; reflexivity).
  assert (H3 : VStr "hello freddy" <> VNone) by discriminate.
  split; [exact hello_params_distinct|]. split; [exact H2|]. split; [exact H3|].
  exact (second_call_returns_cached_result funcs 1 [] ∅ [] ∅ st0 _ _
           hello_params_distinct H2 H3).
Defined.

Lemma body_exception_is_not_cached_witness :
  getattr_fuzz_cache st0 8 = VNone
  /\ inject funcs (fn_annotations (funcs 8)) (length (@nil value)) 0
       (_get_injectable_variables (fn_code (funcs 8))) ∅ st0
     = (inr ∅, st0)
  /\ call_body funcs 8 [] ∅ st0 = (Raise (UserError "boom"), after_boom)
  /\ wrapped funcs 8 [] ∅ st0 = (Raise (UserError "boom"), after_boom)
  /\ fuzz_cache after_boom = fuzz_cache st0
  /\ getattr_fuzz_cache after_boom 8 = VNone
  /\ (forall args2 kwargs2,
        wrapped funcs 8 args2 kwargs2 after_boom
        = resolve_and_call funcs 8 args2 kwargs2 after_boom)
  /\ (forall args2 kwargs2 r2 st3,
        wrapped funcs 8 args2 kwargs2 after_boom = (r2, st3) ->
        (exists e2,
           inject funcs (fn_annotations (funcs 8)) (length args2)
             (length args2) (resolved_names funcs 8 (length args2))
             kwargs2 after_boom = (inl e2, st3)
           /\ r2 = Raise e2)
        \/ runs_again funcs 8 args2 after_boom st3).
Proof.
  assert (H1 : getattr_fuzz_cache st0 8 = VNone) by (vm_compute; reflexivity).
  assert (H2 : inject funcs (fn_annotations (funcs 8)) (length (@nil value)) 0
                 (_get_injectable_variables (fn_code (funcs 8))) ∅ st0
               = (inr ∅, st0)) by (vm_compute; reflexivity).
  assert (H3 : call_body funcs 8 [] ∅ st0 = (Raise (UserError "boom"), after_boom))
    by (vm_compute; reflexivity).
  split; [exact H1|]. split; [exact H2|]. split; [exact H3|].
  exact (body_exception_is_not_cached funcs 8 [] ∅ st0 _ _ _ _ H1 H2 H3).
Defined.

Example boom_raises_again :
  wrapped funcs 8 [] ∅ after_boom
  = (Raise (UserError "boom"),
     {| mapping := registry; fuzz_cache := ∅; world := 2;
        trace := [BodyCall 8 [] ∅; BodyCall 8 [] ∅] |}).
Proof. vm_compute. reflexivity. Qed.

Lemma none_result_is_never_cached_witness :
  wrapped funcs 7 [] ∅ st0 = (Ok VNone, after_noop)
  /\ getattr_fuzz_cache st0 7 = VNone
  /\ getattr_fuzz_cache after_noop 7 = VNone
  /\ body_calls 7 (trace after_noop) = S (body_calls 7 (trace st0))
  /\ (NoDup (_get_injectable_variables (fn_code (funcs 7))) ->
      forall n, n ∈ resolved_names funcs 7 (length (@nil value)) ->
        factory_calls n (trace after_noop) = S (factory_calls n (trace st0)))
  /\ forall args2 kwargs2,
       wrapped funcs 7 args2 kwargs2 after_noop
       = resolve_and_call funcs 7 args2 kwargs2 after_noop.
Proof.
  assert (H1 : wrapped funcs 7 [] ∅ st0 = (Ok VNone, after_noop))
    by (vm_compute; reflexivity).
  split; [exact H1|].
  exact (none_result_is_never_cached funcs 7 [] ∅ st0 _ H1).
Defined.

(** *** The further properties at work *)

Lemma returned_value_is_the_cached_value_witness :
  wrapped funcs 3 [] ∅ st0 = (Ok (VInt 6), after_h)
  /\ getattr_fuzz_cache after_h 3 = VInt 6.
Proof.
  assert (H : wrapped funcs 3 [] ∅ st0 = (Ok (VInt 6), after_h))
    by (vm_compute; reflexivity).
  split; [exact H|].
  exact (returned_value_is_the_cached_value funcs 3 [] ∅ st0 _ _ H).
Defined.

Lemma all_positional_skips_registry_witness :
  getattr_fuzz_cache st0 6 = VNone
  /\ length (_get_injectable_variables (fn_code (funcs 6))) <= length [VInt 7]
  /\ wrapped funcs 6 [VInt 7] ∅ st0
     = match call_body funcs 6 [VInt 7] ∅ st0 with
       | (Raise e, st2) => (Raise e, st2)
       | (Ok v, st2) => (Ok v, setattr_fuzz_cache 6 v st2)
       end.
Proof.
  assert (H1 : getattr_fuzz_cache st0 6 = VNone) by (vm_compute; reflexivity).
  assert (H2 : length (_get_injectable_variables (fn_code (funcs 6)))
               <= length [VInt 7]) by (vm_compute; apply le_n).
  split; [exact H1|]. split; [exact H2|].
  exact (all_positional_skips_registry funcs 6 [VInt 7] ∅ st0 H1 H2).
Defined.

(** [g(7)]: [missing] has no fixture, and none is needed. *)
Example g_called_positionally :
  wrapped funcs 6 [VInt 7] ∅ st0
  = (Ok (VInt 7),
     {| mapping := registry; fuzz_cache := {[ 6 := VInt 7 ]}; world := 1;
        trace := [BodyCall 6 [VInt 7] ∅] |}).
Proof. vm_compute. reflexivity. Qed.

Lemma hello_not_registered : forall n, mapping after_hello !! n <> Some 1.
Proof.
  assert (H : map_Forall (fun _ (f : oid) => f <> 1) registry).
  { refine (bool_decide_unpack _ _). vm_compute. exact I. }
  intros n Hn. exact (H n 1 Hn eq_refl).
Defined.

Lemma unregistered_wrapper_survives_clear_cache_witness :
  (forall n, mapping after_hello !! n <> Some 1)
  /\ getattr_fuzz_cache after_hello 1 <> VNone
  /\ wrapped funcs 1 [] ∅ (clear_cache after_hello)
     = (Ok (getattr_fuzz_cache after_hello 1), clear_cache after_hello).
Proof.
  assert (H2 : getattr_fuzz_cache after_hello 1 <> VNone)
    by (vm_compute; discriminate).
  split; [exact hello_not_registered|]. split; [exact H2|].
  exact (unregistered_wrapper_survives_clear_cache funcs 1 [] ∅ after_hello
           hello_not_registered H2).
Defined.

Lemma completed_call_trace_witness :
  getattr_fuzz_cache st0 1 = VNone
  /\ wrapped funcs 1 [] ∅ st0 = (Ok (VStr "hello freddy"), after_hello)
  /\ length (factory_events (mapping st0)
               (resolved_names funcs 1 (length (@nil value))))
     = length (resolved_names funcs 1 (length (@nil value)))
  /\ exists kw',
       trace after_hello
       = trace st0
           ++ factory_events (mapping st0)
                (resolved_names funcs 1 (length (@nil value)))
           ++ [BodyCall 1 [] kw'].
Proof.
  assert (H1 : getattr_fuzz_cache st0 1 = VNone) by (vm_compute; reflexivity).
  assert (H2 : wrapped funcs 1 [] ∅ st0 = (Ok (VStr "hello freddy"), after_hello))
    by (vm_compute; reflexivity).
  split; [exact H1|]. split; [exact H2|].
  exact (completed_call_trace funcs 1 [] ∅ st0 _ _ H1 H2).
Defined.

Lemma failed_call_trace_witness :
  wrapped funcs 10 [] ∅ st0 = (Raise ValueError, after_two)
  /\ exists j, j <= length (resolved_names funcs 10 (length (@nil value)))
       /\ length (factory_events (mapping st0)
                    (take j (resolved_names funcs 10 (length (@nil value))))) = j
       /\ (trace after_two
           = trace st0
               ++ factory_events (mapping st0)
                    (take j (resolved_names funcs 10 (length (@nil value))))
           \/ j = length (resolved_names funcs 10 (length (@nil value)))
              /\ exists kw' w w',
                   fn_body (funcs 10) [] kw' w = (Raise ValueError, w')
                   /\ trace after_two
                      = trace st0
                          ++ factory_events (mapping st0)
                               (resolved_names funcs 10 (length (@nil value)))
                          ++ [BodyCall 10 [] kw']).
Proof.
  assert (H : wrapped funcs 10 [] ∅ st0 = (Raise ValueError, after_two))
    by (vm_compute; reflexivity).
  split; [exact H|].
  exact (failed_call_trace funcs 10 [] ∅ st0 _ _ H).
Defined.

Lemma exception_origin_witness :
  wrapped funcs 10 [] ∅ st0 = (Raise ValueError, after_two)
  /\ ((ValueError = TypeError
       /\ exists n, n ∈ resolved_names funcs 10 (length (@nil value))
                    /\ mapping st0 !! n = None)
      \/ (exists n f w w',
            n ∈ resolved_names funcs 10 (length (@nil value))
            /\ mapping st0 !! n = Some f
            /\ fn_body (funcs f) [] ∅ w = (Raise ValueError, w'))
      \/ (exists n ann v,
            n ∈ resolved_names funcs 10 (length (@nil value))
            /\ fn_annotations (funcs 10) !! n = Some ann
            /\ ann_is_generic ann = false
            /\ ann_call ann v = Raise ValueError)
      \/ (exists kw w w', fn_body (funcs 10) [] kw w = (Raise ValueError, w'))).
Proof.
  assert (H : wrapped funcs 10 [] ∅ st0 = (Raise ValueError, after_two))
    by (vm_compute; reflexivity).
  split; [exact H|].
  exact (exception_origin funcs 10 [] ∅ st0 _ _ H).
Defined.

Lemma extra_positionals_suppress_keyword_only_witness :
  fn_code (Variadic.funcs 0) = code_of Variadic.report_signature
  /\ NoDup (sig_positional Variadic.report_signature
            ++ sig_kwonly Variadic.report_signature)
  /\ length (sig_positional Variadic.report_signature) + 0
     < length [VInt 10; VInt 11]
  /\ sig_kwonly Variadic.report_signature !! 0 = Some "c"
  /\ wrapped Variadic.funcs 0 [VInt 10; VInt 11] ∅ Variadic.st0
     = (Ok (VList [VInt 10; VInt 11]), Variadic.after_report)
  /\ exists t, trace Variadic.after_report = trace Variadic.st0 ++ t
       /\ factory_calls "c" t = 0
       /\ forall a kw, BodyCall 0 a kw ∈ t ->
            kw !! "c" = (∅ : gmap string value) !! "c".
Proof.
  assert (H1 : fn_code (Variadic.funcs 0) = code_of Variadic.report_signature)
    by reflexivity.
  assert (H2 : NoDup (sig_positional Variadic.report_signature
                      ++ sig_kwonly Variadic.report_signature))
    by (refine (bool_decide_unpack _ _); vm_compute; exact I).
  assert (H3 : length (sig_positional Variadic.report_signature) + 0
               < length [VInt 10; VInt 11]) by (vm_compute; apply le_n).
  assert (H4 : sig_kwonly Variadic.report_signature !! 0 = Some "c")
    by reflexivity.
  assert (H5 : wrapped Variadic.funcs 0 [VInt 10; VInt 11] ∅ Variadic.st0
               = (Ok (VList [VInt 10; VInt 11]), Variadic.after_report))
    by (vm_compute; reflexivity).
  split; [exact H1|]. split; [exact H2|]. split; [exact H3|].
  split; [exact H4|]. split; [exact H5|].
  exact (extra_positionals_suppress_keyword_only Variadic.funcs 0
           Variadic.report_signature [VInt 10; VInt 11] ∅ Variadic.st0 _ _
           0 "c" H1 H2 H3 H4 H5).
Defined.

End Runs.

Module AccessorRuns.
Import Singletons SingletonFacts.

Lemma distinct_accessors_distinct_containers_witness :
  get_excluded_operations <> get_non_vulnerable_operations
  /\ (get get_non_vulnerable_operations
        (run [] (get get_excluded_operations (run [] startup)).2)).1
     <> (get get_excluded_operations (run [] startup)).1
  /\ read (get get_non_vulnerable_operations
             (run [] (get get_excluded_operations (run [] startup)).2)).1
          (mutate (get get_excluded_operations (run [] startup)).1
             (fun _ => PyTagDict {[ "op" := None ]})
             (get get_non_vulnerable_operations
                (run [] (get get_excluded_operations (run [] startup)).2)).2)
     = read (get get_non_vulnerable_operations
               (run [] (get get_excluded_operations (run [] startup)).2)).1
            (get get_non_vulnerable_operations
               (run [] (get get_excluded_operations (run [] startup)).2)).2.
Proof.
  assert (H : get_excluded_operations <> get_non_vulnerable_operations)
    by discriminate.
  split; [exact H|].
  exact (distinct_accessors_distinct_containers [] []
           get_excluded_operations get_non_vulnerable_operations
           (fun _ => PyTagDict {[ "op" := None ]}) H).
Defined.

End AccessorRuns.
